(** * A shallow embedding of [parser.py]: a small parser-combinator engine

    The Python module defines [ParseResult], the [Parser] class with its
    alternation operator, the two leaf parsers ([LiteralParser],
    [RegexParser]) and the two combinators ([SequenceParser],
    [GroupParser]).  Parser objects are mutable and may refer to each
    other cyclically (the combinators are built empty and wired later by
    [define]), so they live in an explicit heap and are named by
    references; [parse] recurses through the heap and is given fuel.

    Conventions of the model:
    - a Python [str] is a [string], one character per code point; [len],
      [startswith], [==] and slicing are [String.length], [String.prefix],
      [String.eqb] and the two slicing functions below;
    - [ParseResult.FAILED] is one object, created once at import time, and
      [ParseResult] defines no [__eq__], so [result == ParseResult.FAILED]
      compares identities.  The constructor [FAILED] stands for that one
      object; every other result object is built by a call
      [ParseResult(self, ...)] in one of the [parse] methods and is
      therefore a different object;
    - [re.compile(pattern).match(text)] belongs to Python's library, not to
      the module: it is a parameter ([Regex]);
    - the objects of the heap are instances of the four concrete classes;
      the bases [Parser] and [CombinedParser], whose [parse] only raises,
      are not instantiated;
    - exceptions are explicit: a computation returns, raises, or (in the
      model only) runs out of fuel. *)

From stdpp Require Import base list strings.
From Stdlib Require Import Lia Ascii.

(** ** Strings: slicing *)

(** [text[n:]] *)
Fixpoint slice_from (n : nat) (text : string) : string :=
  match n, text with
  | 0, _ => text
  | S _, EmptyString => EmptyString
  | S n', String _ rest => slice_from n' rest
  end.

(** [text[:n]] *)
Fixpoint slice_to (n : nat) (text : string) : string :=
  match n, text with
  | 0, _ => EmptyString
  | S _, EmptyString => EmptyString
  | S n', String c rest => String c (slice_to n' rest)
  end.

(** ** Outcomes of a call *)

Inductive exception : Type :=
  | NotImplementedError.

Inductive outcome (A : Type) : Type :=
  | Return (a : A)          (* the call returns [a] *)
  | Raise (e : exception)   (* the call raises [e] *)
  | NoObject                (* a reference with no object behind it *)
  | OutOfFuel.              (* the model's recursion budget is spent *)

Arguments Return {A} a.
Arguments Raise {A} e.
Arguments NoObject {A}.
Arguments OutOfFuel {A}.

Definition bind {A B : Type} (m : outcome A) (k : A -> outcome B) : outcome B :=
  match m with
  | Return a => k a
  | Raise e => Raise e
  | NoObject => NoObject
  | OutOfFuel => OutOfFuel
  end.

Notation "'let*' x ':=' m 'in' k" := (bind m (fun x => k))
  (at level 10, x name, m at level 100, k at level 200).

(** ** [ParseResult] *)

Definition ref : Type := nat.

(** [ParseResult(parser, parsed)] with [parsed : str | list[ParseResult]];
    [FAILED] is the object [ParseResult(None, None)] bound to
    [ParseResult.FAILED]. *)
#[local] Set Warnings "-register-all".
Inductive ParseResult : Type :=
  | FAILED
  | Leaf (parser : ref) (parsed : string)
  | Node (parser : ref) (parsed : list ParseResult).

(** [result == ParseResult.FAILED] *)
Definition is_FAILED (result : ParseResult) : bool :=
  match result with
  | FAILED => true
  | _ => false
  end.

(** The attribute [parser]: [None] on the sentinel. *)
Definition ParseResult_parser (self : ParseResult) : option ref :=
  match self with
  | FAILED => None
  | Leaf parser _ | Node parser _ => Some parser
  end.

(** The attribute [parsed], as the source's union type. *)
Inductive payload : Type :=
  | ParsedNone
  | ParsedStr (s : string)
  | ParsedList (l : list ParseResult).

Definition ParseResult_parsed (self : ParseResult) : payload :=
  match self with
  | FAILED => ParsedNone
  | Leaf _ s => ParsedStr s
  | Node _ l => ParsedList l
  end.

(** The property [length] (lines 12-20): the list case raises. *)
Definition ParseResult_length (self : ParseResult) : outcome nat :=
  match self with
  | FAILED => Return 0
  | Leaf _ parsed => Return (String.length parsed)
  | Node _ _ => Raise NotImplementedError
  end.

(** The length the specification asks for: the list case sums the
    children's lengths, in order. *)
Fixpoint length_spec (self : ParseResult) : nat :=
  match self with
  | FAILED => 0
  | Leaf _ parsed => String.length parsed
  | Node _ parsed => foldr (fun child acc => length_spec child + acc) 0 parsed
  end.

(** ** The regular-expression library *)

(** [re_match pattern text] is [re.compile(pattern).match(text)]: [None]
    when the pattern does not match at the start of [text], otherwise
    [Some e] with [e = match.end()], the end of the match found.  A match
    lies within the text. *)
Class Regex : Type := {
  re_match : string -> string -> option nat;
  re_match_end : forall pattern text e,
    re_match pattern text = Some e -> e <= String.length text
}.

(** ** Parser objects and the heap *)

Inductive Parser : Type :=
  | LiteralParser (literal : string)
  | RegexParser (pattern : string)
  | SequenceParser (parsers : list ref)
  | GroupParser (parsers : list ref).

Definition heap : Type := list Parser.

(** Object creation: the new object gets the next free reference. *)
Definition new (obj : Parser) (h : heap) : ref * heap :=
  (length h, h ++ [obj]).

(** [isinstance(obj, GroupParser)] *)
Definition is_GroupParser (obj : Parser) : bool :=
  match obj with
  | GroupParser _ => true
  | _ => false
  end.

(** [CombinedParser.__init__]: [self.parsers = ()]. *)
Definition new_SequenceParser : heap -> ref * heap := new (SequenceParser []).
Definition new_GroupParser : heap -> ref * heap := new (GroupParser []).

(** [isinstance(q, type(self))], giving [q.parsers] when it holds. *)
Definition same_kind_parsers (self q : Parser) : option (list ref) :=
  match self, q with
  | SequenceParser _, SequenceParser qs => Some qs
  | GroupParser _, GroupParser qs => Some qs
  | _, _ => None
  end.

(** [self.parsers = parsers] *)
Definition set_parsers (self : Parser) (parsers : list ref) : Parser :=
  match self with
  | SequenceParser _ => SequenceParser parsers
  | GroupParser _ => GroupParser parsers
  | leaf => leaf
  end.

(** [CombinedParser.define] (lines 86-92); it returns [self], so the model
    returns the heap only.  Only the combinators have the method; the
    model leaves the heap as it is for any other [self]. *)
Definition CombinedParser_define (h : heap) (self : ref) (parsers : list ref) : heap :=
  match h !! self with
  | Some obj =>
      let parsers :=
        match parsers with
        | [q] =>
            match h !! q with
            | Some qobj =>
                match same_kind_parsers obj qobj with
                | Some qs => qs
                | None => parsers
                end
            | None => parsers
            end
        | _ => parsers
        end in
      <[self := set_parsers obj parsers]> h
  | None => h
  end.

(** [Parser.__or__] (lines 36-45). *)
Definition Parser_or (h : heap) (self other : ref) : ref * heap :=
  let '(g, h') := new_GroupParser h in
  match h !! self, h !! other with
  | Some (GroupParser ps), Some (GroupParser qs) =>
      (g, CombinedParser_define h' g (ps ++ qs))
  | Some (GroupParser ps), _ =>
      (g, CombinedParser_define h' g (ps ++ [other]))
  | _, Some (GroupParser qs) =>
      (g, CombinedParser_define h' g (self :: qs))
  | _, _ =>
      (g, CombinedParser_define h' g [self; other])
  end.

(** ** The [parse] methods *)

Section Parse.

Context {regex : Regex}.

(** [LiteralParser.parse] (lines 53-60). *)
Definition LiteralParser_parse (self : ref) (literal text : string)
    (partially : bool) : ParseResult :=
  if negb (String.prefix literal text) then FAILED
  else if negb partially && negb (String.eqb text literal) then FAILED
  else Leaf self literal.

(** [RegexParser.parse] (lines 68-78). *)
Definition RegexParser_parse (self : ref) (pattern text : string)
    (partially : bool) : ParseResult :=
  match re_match pattern text with
  | Some e =>
      if partially then Leaf self (slice_to e text)
      else if negb (String.eqb text (slice_to e text)) then FAILED
      else Leaf self text
  | None => FAILED
  end.

(** The code after the loop of [SequenceParser.parse] (lines 113-116). *)
Definition SequenceParser_finish (self : ref) (text : string)
    (partially : bool) (results : list ParseResult) : ParseResult :=
  if negb partially && (0 <? String.length text) then FAILED
  else Node self results.

(** The loop of [SequenceParser.parse] (lines 101-111) over the children
    still to be tried, with the current [text] and [results]; [call] is the
    dynamic dispatch [parser.parse(text, partially)]. *)
Fixpoint SequenceParser_loop (call : ref -> string -> bool -> outcome ParseResult)
    (self : ref) (parsers : list ref) (text : string) (partially : bool)
    (results : list ParseResult) : outcome ParseResult :=
  match parsers with
  | [] => Return (SequenceParser_finish self text partially results)
  | parser :: rest =>
      let* result := call parser text true in
      if is_FAILED result then
        if negb partially then Return FAILED
        else Return (SequenceParser_finish self text partially results)
      else
        let* n := ParseResult_length result in
        SequenceParser_loop call self rest (slice_from n text) partially
          (results ++ [result])
  end.

(** [SequenceParser.parse] (lines 96-116). *)
Definition SequenceParser_parse (call : ref -> string -> bool -> outcome ParseResult)
    (self : ref) (parsers : list ref) (text : string) (partially : bool)
    : outcome ParseResult :=
  SequenceParser_loop call self parsers text partially [].

(** [GroupParser.parse] (lines 120-129). *)
Fixpoint GroupParser_parse (call : ref -> string -> bool -> outcome ParseResult)
    (parsers : list ref) (text : string) (partially : bool)
    : outcome ParseResult :=
  match parsers with
  | [] => Return FAILED
  | parser :: rest =>
      let* result := call parser text partially in
      if negb (is_FAILED result) then Return result
      else GroupParser_parse call rest text partially
  end.

(** [p.parse(text, partially)] for the object behind [p]: the method of
    its class.  Each nested call spends one unit of fuel. *)
Fixpoint parse (fuel : nat) (h : heap) (p : ref) (text : string)
    (partially : bool) : outcome ParseResult :=
  match fuel with
  | 0 => OutOfFuel
  | S fuel' =>
      match h !! p with
      | None => NoObject
      | Some (LiteralParser literal) =>
          Return (LiteralParser_parse p literal text partially)
      | Some (RegexParser pattern) =>
          Return (RegexParser_parse p pattern text partially)
      | Some (SequenceParser parsers) =>
          SequenceParser_parse (parse fuel' h) p parsers text partially
      | Some (GroupParser parsers) =>
          GroupParser_parse (parse fuel' h) parsers text partially
      end
  end.

(** The call [p.parse(text, partially)] ends with outcome [o]: it returns
    or raises, with some amount of fuel. *)
Definition parse_ends (h : heap) (p : ref) (text : string) (partially : bool)
    (o : outcome ParseResult) : Prop :=
  o <> OutOfFuel /\ exists fuel, parse fuel h p text partially = o.

(** The call returns [r]. *)
Definition parse_returns (h : heap) (p : ref) (text : string)
    (partially : bool) (r : ParseResult) : Prop :=
  exists fuel, parse fuel h p text partially = Return r.

(** The children [parsers], tried in order from [text] as the loop of
    [SequenceParser.parse] does, all succeed: [results] are the results
    they return, each child starting where the one before stopped, and
    [rest] is the text left after the last one. *)
Inductive gathers (h : heap)
    : string -> list ref -> list ParseResult -> string -> Prop :=
  | gathers_nil text : gathers h text [] [] text
  | gathers_cons text parser parsers result n results rest :
      parse_returns h parser text true result ->
      result <> FAILED ->
      ParseResult_length result = Return n ->
      gathers h (slice_from n text) parsers results rest ->
      gathers h text (parser :: parsers) (result :: results) rest.

(** A success as a [parse] method builds it: a string payload with a leaf
    parser of the heap, or a list payload with a sequence parser of the
    heap. *)
Definition built_by (h : heap) (r : ParseResult) : Prop :=
  match r with
  | FAILED => False
  | Leaf parser _ =>
      (exists literal, h !! parser = Some (LiteralParser literal))
      \/ (exists pattern, h !! parser = Some (RegexParser pattern))
  | Node parser _ => exists parsers, h !! parser = Some (SequenceParser parsers)
  end.

End Parse.

(** ** The specification's reading of [length], put into the sequence loop

    The same loop with [length_spec] in place of the property [length]: the
    parser the specification describes.  It serves to compare. *)

Section ParseSpec.

Context {regex : Regex}.

Fixpoint SequenceParser_loop_spec (call : ref -> string -> bool -> outcome ParseResult)
    (self : ref) (parsers : list ref) (text : string) (partially : bool)
    (results : list ParseResult) : outcome ParseResult :=
  match parsers with
  | [] => Return (SequenceParser_finish self text partially results)
  | parser :: rest =>
      let* result := call parser text true in
      if is_FAILED result then
        if negb partially then Return FAILED
        else Return (SequenceParser_finish self text partially results)
      else
        SequenceParser_loop_spec call self rest
          (slice_from (length_spec result) text) partially (results ++ [result])
  end.

Fixpoint parse_spec (fuel : nat) (h : heap) (p : ref) (text : string)
    (partially : bool) : outcome ParseResult :=
  match fuel with
  | 0 => OutOfFuel
  | S fuel' =>
      match h !! p with
      | None => NoObject
      | Some (LiteralParser literal) =>
          Return (LiteralParser_parse p literal text partially)
      | Some (RegexParser pattern) =>
          Return (RegexParser_parse p pattern text partially)
      | Some (SequenceParser parsers) =>
          SequenceParser_loop_spec (parse_spec fuel' h) p parsers text partially []
      | Some (GroupParser parsers) =>
          GroupParser_parse (parse_spec fuel' h) parsers text partially
      end
  end.

End ParseSpec.

(** ** A regular-expression engine for the digits pattern

    Python's [re] on the one pattern the example grammars use: [[0-9]+]
    matches the longest run of ASCII digits at the start of the text, and at
    least one.  Every other pattern is unknown to this engine and matches
    nothing. *)

Definition is_digit (c : Ascii.ascii) : bool :=
  (48 <=? Ascii.nat_of_ascii c) && (Ascii.nat_of_ascii c <=? 57).

Fixpoint digits_run (text : string) : nat :=
  match text with
  | String c rest => if is_digit c then S (digits_run rest) else 0
  | EmptyString => 0
  end.

Definition digits_match (pattern text : string) : option nat :=
  if String.eqb pattern "[0-9]+" then
    match digits_run text with
    | 0 => None
    | e => Some e
    end
  else None.

Lemma digits_run_le text : digits_run text <= String.length text.
Proof.
  induction text as [|c rest IH]; simpl; [lia|].
  destruct (is_digit c); lia.
Qed.

Lemma digits_match_end pattern text e :
  digits_match pattern text = Some e -> e <= String.length text.
Proof.
  unfold digits_match. destruct (String.eqb pattern "[0-9]+"); [|discriminate].
  pose proof (digits_run_le text) as Hle.
  destruct (digits_run text); [discriminate|].
  intros [= <-]. exact Hle.
Qed.

Definition digits_regex : Regex :=
  {| re_match := digits_match; re_match_end := digits_match_end |}.

(** ** The self-referential grammar of the recursion scenario

    [digits = RegexParser("[0-9]+")], [plus = LiteralParser("+")],
    [expr = GroupParser()], [sum = SequenceParser()],
    [sum.define(digits, plus, expr)], [expr.define(sum, digits)]. *)

Module ExprGrammar.

Definition after_digits := new (RegexParser "[0-9]+") [].
Definition digits : ref := fst after_digits.
Definition after_plus := new (LiteralParser "+") (snd after_digits).
Definition plus : ref := fst after_plus.
Definition after_expr := new_GroupParser (snd after_plus).
Definition expr : ref := fst after_expr.
Definition after_sum := new_SequenceParser (snd after_expr).
Definition sum : ref := fst after_sum.
Definition grammar : heap :=
  CombinedParser_define
    (CombinedParser_define (snd after_sum) sum [digits; plus; expr])
    expr [sum; digits].

End ExprGrammar.

(** ** The grammar of the end-to-end scenario

    [digits = RegexParser("[0-9]+")], [plus = LiteralParser("+")],
    [sum = SequenceParser()], [sum.define(digits, plus, digits)]. *)

Module SumGrammar.

Definition after_digits := new (RegexParser "[0-9]+") [].
Definition digits : ref := fst after_digits.
Definition after_plus := new (LiteralParser "+") (snd after_digits).
Definition plus : ref := fst after_plus.
Definition after_sum := new_SequenceParser (snd after_plus).
Definition sum : ref := fst after_sum.
Definition grammar : heap :=
  CombinedParser_define (snd after_sum) sum [digits; plus; digits].

End SumGrammar.

(** ** Notions used to state properties of the engine *)

(** The children of a combinator; a leaf parser has none. *)
Definition Parser_children (obj : Parser) : list ref :=
  match obj with
  | SequenceParser parsers | GroupParser parsers => parsers
  | _ => []
  end.

(** The text a result stands for: the string of a leaf success, the
    strings of the children joined in order for a list payload, nothing
    for the sentinel. *)
Fixpoint matched_text (r : ParseResult) : string :=
  match r with
  | FAILED => ""
  | Leaf _ parsed => parsed
  | Node _ parsed => foldr (fun child acc => matched_text child +:+ acc) "" parsed
  end.

(** [isinstance(r.parsed, str)] *)
Definition is_Leaf (r : ParseResult) : bool :=
  match r with
  | Leaf _ _ => true
  | _ => false
  end.

(** A list payload under another parser's name. *)
Definition with_parser (self : ref) (r : ParseResult) : ParseResult :=
  match r with
  | Node _ parsed => Node self parsed
  | _ => r
  end.

(** The grammar is acyclic: every child of a combinator is an object of
    the heap and has a smaller [rank] than the combinator, so no parser is
    reached from itself. *)
Definition ranked (h : heap) (rank : ref -> nat) : Prop :=
  forall p obj, h !! p = Some obj ->
    Forall (fun child => child < length h /\ rank child < rank p)
      (Parser_children obj).

(** ** The grammar the module builds when it is run (lines 148-158)

    [expr = GroupParser()], [add = SequenceParser()],
    [mult = SequenceParser()], [num = RegexParser("[0-9]+")],
    [plus = LiteralParser("+")], [star = LiteralParser("*")],
    [expr.define(num, add, mult)], [add.define(expr, plus, expr)],
    [mult.define(expr, star, expr)]. *)

Module Driver.

Definition after_expr := new_GroupParser [].
Definition expr : ref := fst after_expr.
Definition after_add := new_SequenceParser (snd after_expr).
Definition add : ref := fst after_add.
Definition after_mult := new_SequenceParser (snd after_add).
Definition mult : ref := fst after_mult.
Definition after_num := new (RegexParser "[0-9]+") (snd after_mult).
Definition num : ref := fst after_num.
Definition after_plus := new (LiteralParser "+") (snd after_num).
Definition plus : ref := fst after_plus.
Definition after_star := new (LiteralParser "*") (snd after_plus).
Definition star : ref := fst after_star.
Definition grammar : heap :=
  CombinedParser_define
    (CombinedParser_define
       (CombinedParser_define (snd after_star) expr [num; add; mult])
       add [expr; plus; expr])
    mult [expr; star; expr].

End Driver.

(** The outcome of a call that came to its end: it returned or raised. *)
Definition completes {A : Type} (o : outcome A) : Prop :=
  match o with
  | Return _ | Raise _ => True
  | NoObject | OutOfFuel => False
  end.

(** What [Parser.__or__] takes from an operand: the children of a group
    parser, the operand itself otherwise. *)
Definition operands (h : heap) (p : ref) : list ref :=
  match h !! p with
  | Some (GroupParser parsers) => parsers
  | _ => [p]
  end.

(** Every child reference of a combinator of the heap has an object behind
    it, as in Python, where a reference cannot dangle. *)
Definition closed (h : heap) : Prop :=
  forall p obj, h !! p = Some obj ->
    Forall (fun child => child < length h) (Parser_children obj).

(** A non-empty string of ASCII digits: what [[0-9]+] matches in full. *)
Definition all_digits (s : string) : Prop :=
  0 < String.length s /\ digits_run s = String.length s.

(** The children [define] stores: those of the single argument when it
    is a combinator of the class of [self], the arguments otherwise. *)
Definition stored_parsers (h : heap) (obj : Parser) (parsers : list ref)
    : list ref :=
  match parsers with
  | [q] =>
      match h !! q with
      | Some qobj =>
          match same_kind_parsers obj qobj with
          | Some qs => qs
          | None => parsers
          end
      | None => parsers
      end
  | _ => parsers
  end.

(** * Properties *)

(** ** Strings *)

Lemma app_cons (c : Ascii.ascii) (s t : string) :
  String c s +:+ t = String c (s +:+ t).
Proof. reflexivity. Qed.

Lemma prefix_app (s t : string) : String.prefix s (s +:+ t) = true.
Proof.
  induction s as [|c s IH].
  - by destruct t.
  - rewrite app_cons. simpl.
    destruct (Ascii.ascii_dec c c); [exact IH | done].
Qed.

Lemma app_empty_r (s : string) : s +:+ "" = s.
Proof. induction s as [|c s IH]; [done | by rewrite app_cons, IH]. Qed.

Lemma length_app (s t : string) :
  String.length (s +:+ t) = String.length s + String.length t.
Proof. induction s as [|c s IH]; [done | by rewrite app_cons; simpl; rewrite IH]. Qed.

Lemma eqb_app_nonempty (s t : string) :
  t <> EmptyString -> String.eqb (s +:+ t) s = false.
Proof.
  intros Ht. apply String.eqb_neq. intros Heq.
  apply (f_equal String.length) in Heq. rewrite length_app in Heq.
  destruct t; [done | simpl in Heq; lia].
Qed.

Lemma slice_to_length (e : nat) (text : string) :
  e <= String.length text -> String.length (slice_to e text) = e.
Proof.
  revert text. induction e as [|e IH]; intros [|c text]; simpl; try lia.
  intros Hle. rewrite IH; lia.
Qed.

Lemma slice_to_all (e : nat) (text : string) :
  String.length text <= e -> slice_to e text = text.
Proof.
  revert text. induction e as [|e IH]; intros [|c text]; simpl; try done.
  - lia.
  - intros Hle. rewrite IH; [done | lia].
Qed.

Lemma slice_to_prefix (e : nat) (text : string) :
  String.prefix (slice_to e text) text = true.
Proof.
  revert text. induction e as [|e IH]; intros [|c text]; simpl; try done.
  destruct (Ascii.ascii_dec c c); [apply IH | done].
Qed.

(** [text == text[:e]] holds exactly when the slice is the whole text. *)
Lemma eqb_slice_to (e : nat) (text : string) :
  e <= String.length text ->
  String.eqb text (slice_to e text) = bool_decide (e = String.length text).
Proof.
  intros Hle. case_bool_decide as He.
  - rewrite slice_to_all; [apply String.eqb_refl | lia].
  - apply String.eqb_neq. intros Heq.
    apply (f_equal String.length) in Heq.
    rewrite slice_to_length in Heq; [congruence | done].
Qed.

(** ** Fuel

    More fuel does not change an outcome that was reached. *)

Section Fuel.

Context {regex : Regex}.

(** [call'] does whatever [call] does when [call] has fuel enough. *)
Definition extends (call call' : ref -> string -> bool -> outcome ParseResult) : Prop :=
  forall p text partially,
    call p text partially <> OutOfFuel ->
    call' p text partially = call p text partially.

Lemma SequenceParser_loop_extends call call' self parsers text partially results :
  extends call call' ->
  SequenceParser_loop call self parsers text partially results <> OutOfFuel ->
  SequenceParser_loop call' self parsers text partially results
  = SequenceParser_loop call self parsers text partially results.
Proof.
  intros Hext. revert text results.
  induction parsers as [|parser rest IH]; intros text results; simpl; [done|].
  intros Hfuel.
  assert (call parser text true <> OutOfFuel) as Hcall
    by (intros Hcall; by rewrite Hcall in Hfuel).
  rewrite (Hext _ _ _ Hcall).
  destruct (call parser text true) as [result| | |]; simpl in *; try done.
  destruct (is_FAILED result); [done|].
  destruct (ParseResult_length result) as [n| | |]; simpl in *; try done.
  by apply IH.
Qed.

Lemma GroupParser_parse_extends call call' parsers text partially :
  extends call call' ->
  GroupParser_parse call parsers text partially <> OutOfFuel ->
  GroupParser_parse call' parsers text partially
  = GroupParser_parse call parsers text partially.
Proof.
  intros Hext.
  induction parsers as [|parser rest IH]; simpl; [done|].
  intros Hfuel.
  assert (call parser text partially <> OutOfFuel) as Hcall
    by (intros Hcall; by rewrite Hcall in Hfuel).
  rewrite (Hext _ _ _ Hcall).
  destruct (call parser text partially) as [result| | |]; simpl in *; try done.
  destruct (is_FAILED result); simpl in *; [by apply IH | done].
Qed.

(** One step of [parse]. *)
Lemma parse_unfold fuel h p text partially :
  parse (S fuel) h p text partially
  = match h !! p with
    | None => NoObject
    | Some (LiteralParser literal) =>
        Return (LiteralParser_parse p literal text partially)
    | Some (RegexParser pattern) =>
        Return (RegexParser_parse p pattern text partially)
    | Some (SequenceParser parsers) =>
        SequenceParser_parse (parse fuel h) p parsers text partially
    | Some (GroupParser parsers) =>
        GroupParser_parse (parse fuel h) parsers text partially
    end.
Proof. reflexivity. Qed.

Lemma parse_S fuel h : extends (parse fuel h) (parse (S fuel) h).
Proof.
  induction fuel as [|fuel IH]; intros p text partially Hfuel; [done|].
  rewrite (parse_unfold (S fuel)). rewrite parse_unfold in Hfuel |- *.
  destruct (h !! p) as [[literal|pattern|parsers|parsers]|]; try done.
  - by apply SequenceParser_loop_extends.
  - by apply GroupParser_parse_extends.
Qed.

Lemma parse_fuel_mono fuel fuel' h p text partially :
  fuel <= fuel' ->
  parse fuel h p text partially <> OutOfFuel ->
  parse fuel' h p text partially = parse fuel h p text partially.
Proof.
  induction 1 as [|fuel' Hle IH]; [done|].
  intros Hfuel. rewrite parse_S; [by apply IH|].
  by rewrite IH.
Qed.

Lemma parse_returns_mono fuel fuel' h p text partially r :
  fuel <= fuel' ->
  parse fuel h p text partially = Return r ->
  parse fuel' h p text partially = Return r.
Proof.
  intros Hle Hr. rewrite (parse_fuel_mono fuel); [done..|]. by rewrite Hr.
Qed.

(** A call has at most one outcome. *)
Lemma parse_ends_unique h p text partially o1 o2 :
  parse_ends h p text partially o1 ->
  parse_ends h p text partially o2 ->
  o1 = o2.
Proof.
  intros [Ho1 [f1 H1]] [Ho2 [f2 H2]].
  destruct (Nat.le_ge_cases f1 f2) as [Hle|Hle].
  - rewrite <- H1, <- H2. symmetry. apply parse_fuel_mono; [done | by rewrite H1].
  - rewrite <- H1, <- H2. apply parse_fuel_mono; [done | by rewrite H2].
Qed.

Lemma parse_returns_ends h p text partially r :
  parse_returns h p text partially r <->
  parse_ends h p text partially (Return r).
Proof.
  unfold parse_returns, parse_ends. split.
  - intros [fuel Hr]. split; [done | by exists fuel].
  - by intros [_ Hr].
Qed.

Lemma parse_returns_unique h p text partially r1 r2 :
  parse_returns h p text partially r1 ->
  parse_returns h p text partially r2 ->
  r1 = r2.
Proof.
  rewrite !parse_returns_ends. intros H1 H2.
  pose proof (parse_ends_unique _ _ _ _ _ _ H1 H2) as Heq. congruence.
Qed.

End Fuel.

(** ** Object creation and the heap *)

Lemma new_lookup obj h : snd (new obj h) !! fst (new obj h) = Some obj.
Proof. by apply list_lookup_middle. Qed.

Lemma new_lookup_old obj h p k :
  h !! p = Some k -> snd (new obj h) !! p = Some k.
Proof. intros Hp. by apply lookup_app_l_Some. Qed.

Lemma new_fresh obj h p k : h !! p = Some k -> p <> fst (new obj h).
Proof. intros Hp%lookup_lt_Some. unfold new, fst. lia. Qed.

(** [define] with two children or more stores them as given. *)
Lemma define_lookup h self p q parsers :
  h !! self = Some (GroupParser []) ->
  CombinedParser_define h self (p :: q :: parsers) !! self
  = Some (GroupParser (p :: q :: parsers)).
Proof.
  intros Hself. unfold CombinedParser_define. rewrite Hself. simpl.
  apply list_lookup_insert_eq. by eapply lookup_lt_Some.
Qed.

Lemma define_lookup_other h self parsers p :
  p <> self ->
  CombinedParser_define h self parsers !! p = h !! p.
Proof.
  intros Hne. unfold CombinedParser_define.
  destruct (h !! self); [|done]. by apply list_lookup_insert_ne.
Qed.

(** ** [ParseResult.length] *)

Section Length.

Context {regex : Regex}.

(** C1.  The property [length] returns the number of characters of a leaf
    result and 0 on the sentinel, but on every combinator result it raises
    [NotImplementedError] instead of returning the sum of the children's
    lengths; the result of a sequence parser without children on the empty
    text, whose sum is 0, is such a result. *)
Theorem ParseResult_length_cases :
  (forall parser parsed,
     ParseResult_length (Leaf parser parsed) = Return (String.length parsed))
  /\ ParseResult_length FAILED = Return 0
  /\ (forall parser parsed,
       ParseResult_length (Node parser parsed) = Raise NotImplementedError)
  /\ (let '(s, h) := new_SequenceParser [] in
      parse 1 h s "" true = Return (Node s [])
      /\ ParseResult_length (Node s []) = Raise NotImplementedError
      /\ length_spec (Node s []) = 0).
Proof. repeat split. Qed.

End Length.

(** ** The leaf parsers *)

Section Leaves.

Context {regex : Regex}.

Lemma LiteralParser_parse_success self literal text partially r :
  LiteralParser_parse self literal text partially = r ->
  r <> FAILED ->
  r = Leaf self literal.
Proof.
  unfold LiteralParser_parse. intros <-.
  destruct (negb (String.prefix literal text)); [done|].
  by destruct (negb partially && negb (String.eqb text literal)).
Qed.

(** C7.  A literal parser for [s] accepts exactly [s] in total mode, with
    length [len(s)]; on [s] followed by a non-empty [t] it fails in total
    mode and succeeds in partial mode with length [len(s)]; whenever it
    succeeds, in either mode, the payload is [s]. *)
Theorem LiteralParser_exact (self : ref) (s : string) :
  LiteralParser_parse self s s false = Leaf self s
  /\ ParseResult_length (Leaf self s) = Return (String.length s)
  /\ (forall t, t <> EmptyString ->
        LiteralParser_parse self s (s +:+ t) false = FAILED
        /\ LiteralParser_parse self s (s +:+ t) true = Leaf self s)
  /\ (forall text partially,
        LiteralParser_parse self s text partially <> FAILED ->
        LiteralParser_parse self s text partially = Leaf self s
        /\ ParseResult_parsed (LiteralParser_parse self s text partially)
           = ParsedStr s).
Proof.
  split; [|split; [done|split]].
  - unfold LiteralParser_parse.
    rewrite <- (app_empty_r s) at 2.
    by rewrite prefix_app, String.eqb_refl.
  - intros t Ht. unfold LiteralParser_parse.
    by rewrite prefix_app, eqb_app_nonempty.
  - intros text partially Hok.
    by rewrite (LiteralParser_parse_success self s text partially _ eq_refl Hok).
Qed.

(** C6.  In partial mode a pattern parser succeeds exactly when the pattern
    matches at the start of the text, and the payload is then the matched
    prefix [text[:e]], of length [e]; in total mode it succeeds exactly when
    that match ends at the end of the text (the payload is then the text),
    and it returns the sentinel when the match is a proper prefix. *)
Theorem RegexParser_anchored (self : ref) (pattern text : string) :
  (RegexParser_parse self pattern text true <> FAILED
   <-> exists e, re_match pattern text = Some e)
  /\ (forall e, re_match pattern text = Some e ->
        RegexParser_parse self pattern text true = Leaf self (slice_to e text)
        /\ String.prefix (slice_to e text) text = true
        /\ ParseResult_length (RegexParser_parse self pattern text true)
           = Return e)
  /\ (RegexParser_parse self pattern text false <> FAILED
      <-> re_match pattern text = Some (String.length text))
  /\ (RegexParser_parse self pattern text false <> FAILED ->
      RegexParser_parse self pattern text false = Leaf self text)
  /\ (forall e, re_match pattern text = Some e -> e < String.length text ->
        RegexParser_parse self pattern text false = FAILED
        /\ RegexParser_parse self pattern text true <> FAILED).
Proof.
  unfold RegexParser_parse.
  destruct (re_match pattern text) as [e|] eqn:Hmatch.
  - pose proof (re_match_end _ _ _ Hmatch) as Hle.
    rewrite (eqb_slice_to e text Hle).
    split_and!.
    + split; [intros _; by exists e | done].
    + intros e' [= <-].
      split_and!; [done | apply slice_to_prefix |].
      simpl. by rewrite slice_to_length.
    + case_bool_decide as He; simpl.
      * split; [intros _; congruence | done].
      * split; [done | intros [= ?]; done].
    + by case_bool_decide.
    + intros e' [= <-] Hlt. by rewrite bool_decide_false by lia.
  - split_and!; try done.
    split; [done | intros [e He]; done].
Qed.

End Leaves.

(** The digits pattern on ["12+7"]: the match ends at 2. *)
Lemma RegexParser_anchored_witness :
  @re_match digits_regex "[0-9]+" "12+7" = Some 2
  /\ 2 < String.length "12+7"
  /\ @RegexParser_parse digits_regex 0 "[0-9]+" "12+7" true = Leaf 0 "12"
  /\ @RegexParser_parse digits_regex 0 "[0-9]+" "12+7" false = FAILED.
Proof.
  split; [reflexivity|]. split; [simpl; lia|].
  pose proof (@RegexParser_anchored digits_regex 0 "[0-9]+" "12+7")
    as (_ & Hpartial & _ & _ & Htotal).
  split.
  - exact (proj1 (Hpartial 2 eq_refl)).
  - refine (proj1 (Htotal 2 eq_refl _)). simpl. lia.
Defined.

(** On ["ab"] followed by ["c"]. *)
Lemma LiteralParser_exact_witness :
  "c" <> EmptyString
  /\ LiteralParser_parse 0 "ab" "abc" false = FAILED
  /\ LiteralParser_parse 0 "ab" "abc" true = Leaf 0 "ab".
Proof.
  split; [discriminate|].
  exact (proj1 (proj2 (proj2 (LiteralParser_exact 0 "ab"))) "c"
           ltac:(discriminate)).
Defined.

(** ** Combinators that were never defined *)

Section Undefined.

Context {regex : Regex}.

(** C10.  A combinator on which [define] was never called has no children
    and its [parse] returns: a group parser returns the sentinel on every
    text in both modes; a sequence parser returns a success without
    children on every text in partial mode, and in total mode it does so
    exactly on the empty text and returns the sentinel on any other. *)
Theorem undefined_combinator_parse (h : heap) (text : string) (fuel : nat) :
  (let g := fst (new_GroupParser h) in
   let h' := snd (new_GroupParser h) in
   h' !! g = Some (GroupParser [])
   /\ forall partially, parse (S fuel) h' g text partially = Return FAILED)
  /\ (let s := fst (new_SequenceParser h) in
      let h' := snd (new_SequenceParser h) in
      h' !! s = Some (SequenceParser [])
      /\ parse (S fuel) h' s text true = Return (Node s [])
      /\ parse (S fuel) h' s text false
         = Return (if bool_decide (text = "") then Node s [] else FAILED)).
Proof.
  split.
  - assert (snd (new_GroupParser h) !! fst (new_GroupParser h)
            = Some (GroupParser [])) as Hg by apply new_lookup.
    split; [exact Hg|]. intros partially.
    by rewrite parse_unfold, Hg.
  - assert (snd (new_SequenceParser h) !! fst (new_SequenceParser h)
            = Some (SequenceParser [])) as Hs by apply new_lookup.
    split; [exact Hs|].
    rewrite !parse_unfold, Hs.
    split; [done|].
    unfold SequenceParser_parse, SequenceParser_loop, SequenceParser_finish.
    by destruct text.
Qed.

End Undefined.

(** ** The alternation operator *)

(** [self | other] when neither is a group parser. *)
Lemma Parser_or_plain h self other kself kother :
  h !! self = Some kself -> h !! other = Some kother ->
  is_GroupParser kself = false -> is_GroupParser kother = false ->
  Parser_or h self other
  = (fst (new_GroupParser h),
     CombinedParser_define (snd (new_GroupParser h)) (fst (new_GroupParser h))
       [self; other]).
Proof.
  intros Hself Hother Hkself Hkother. unfold Parser_or.
  rewrite Hself, Hother. by destruct kself, kother.
Qed.

(** [self | other] when only [self] is a group parser. *)
Lemma Parser_or_group_l h self other ps kother :
  h !! self = Some (GroupParser ps) -> h !! other = Some kother ->
  is_GroupParser kother = false ->
  Parser_or h self other
  = (fst (new_GroupParser h),
     CombinedParser_define (snd (new_GroupParser h)) (fst (new_GroupParser h))
       (ps ++ [other])).
Proof.
  intros Hself Hother Hkother. unfold Parser_or.
  rewrite Hself, Hother. by destruct kother.
Qed.

(** [self | other] when only [other] is a group parser. *)
Lemma Parser_or_group_r h self other kself qs :
  h !! self = Some kself -> h !! other = Some (GroupParser qs) ->
  is_GroupParser kself = false ->
  Parser_or h self other
  = (fst (new_GroupParser h),
     CombinedParser_define (snd (new_GroupParser h)) (fst (new_GroupParser h))
       (self :: qs)).
Proof.
  intros Hself Hother Hkself. unfold Parser_or.
  rewrite Hself, Hother. by destruct kself.
Qed.

(** The new group parser of [Parser_or] holds the children passed to
    [define] when they are two or more, and the objects that existed keep
    their state. *)
Lemma new_group_defined h p q parsers :
  let g := fst (new_GroupParser h) in
  let h' := CombinedParser_define (snd (new_GroupParser h)) g (p :: q :: parsers) in
  h' !! g = Some (GroupParser (p :: q :: parsers))
  /\ forall r k, h !! r = Some k -> h' !! r = Some k.
Proof.
  intros g h'. split.
  - apply define_lookup, new_lookup.
  - intros r k Hr. unfold h'. rewrite define_lookup_other.
    + by apply new_lookup_old.
    + by eapply new_fresh.
Qed.

(** C5.  For parser objects [P1], [P2], [P3] none of which is a group
    parser, [(P1 | P2) | P3] and [P1 | (P2 | P3)] are both a group parser
    whose children are exactly [P1; P2; P3], in that order; the three
    operands are as they were, so no child is itself a group parser. *)
Theorem Parser_or_flattens (h : heap) (P1 P2 P3 : ref) (k1 k2 k3 : Parser) :
  h !! P1 = Some k1 -> h !! P2 = Some k2 -> h !! P3 = Some k3 ->
  is_GroupParser k1 = false ->
  is_GroupParser k2 = false ->
  is_GroupParser k3 = false ->
  (let inner := Parser_or h P1 P2 in
   let outer := Parser_or (snd inner) (fst inner) P3 in
   snd outer !! fst outer = Some (GroupParser [P1; P2; P3])
   /\ snd outer !! P1 = Some k1
   /\ snd outer !! P2 = Some k2
   /\ snd outer !! P3 = Some k3)
  /\ (let inner := Parser_or h P2 P3 in
      let outer := Parser_or (snd inner) P1 (fst inner) in
      snd outer !! fst outer = Some (GroupParser [P1; P2; P3])
      /\ snd outer !! P1 = Some k1
      /\ snd outer !! P2 = Some k2
      /\ snd outer !! P3 = Some k3).
Proof.
  intros H1 H2 H3 Hk1 Hk2 Hk3. split.
  - rewrite (Parser_or_plain h P1 P2 k1 k2) by done.
    destruct (new_group_defined h P1 P2 []) as [Hg Hold].
    cbn zeta in Hg, Hold |- *. cbn [fst snd].
    set (h1 := CombinedParser_define _ _ [P1; P2]) in *.
    rewrite (Parser_or_group_l h1 _ P3 [P1; P2] k3) by eauto.
    cbn [fst snd app].
    destruct (new_group_defined h1 P1 P2 [P3]) as [Hg' Hold'].
    cbn zeta in Hg', Hold'. eauto 10.
  - rewrite (Parser_or_plain h P2 P3 k2 k3) by done.
    destruct (new_group_defined h P2 P3 []) as [Hg Hold].
    cbn zeta in Hg, Hold |- *. cbn [fst snd].
    set (h1 := CombinedParser_define _ _ [P2; P3]) in *.
    rewrite (Parser_or_group_r h1 P1 _ k1 [P2; P3]) by eauto.
    cbn [fst snd].
    destruct (new_group_defined h1 P1 P2 [P3]) as [Hg' Hold'].
    cbn zeta in Hg', Hold'. eauto 10.
Qed.

(** On a literal, a pattern and a sequence parser. *)
Lemma Parser_or_flattens_witness :
  let h := [LiteralParser "a"; RegexParser "[0-9]+"; SequenceParser [0; 1]] in
  (h !! 0 = Some (LiteralParser "a")
   /\ h !! 1 = Some (RegexParser "[0-9]+")
   /\ h !! 2 = Some (SequenceParser [0; 1]))
  /\ snd (Parser_or (snd (Parser_or h 0 1)) (fst (Parser_or h 0 1)) 2)
     !! fst (Parser_or (snd (Parser_or h 0 1)) (fst (Parser_or h 0 1)) 2)
     = Some (GroupParser [0; 1; 2])
  /\ snd (Parser_or (snd (Parser_or h 1 2)) 0 (fst (Parser_or h 1 2)))
     !! fst (Parser_or (snd (Parser_or h 1 2)) 0 (fst (Parser_or h 1 2)))
     = Some (GroupParser [0; 1; 2]).
Proof.
  intros h. split; [by repeat split|].
  pose proof (Parser_or_flattens h 0 1 2 _ _ _ eq_refl eq_refl eq_refl
                eq_refl eq_refl eq_refl) as [Hleft Hright].
  split; [exact (proj1 Hleft) | exact (proj1 Hright)].
Defined.

(** ** [SequenceParser.parse] *)

Section Sequence.

Context {regex : Regex}.

Lemma is_FAILED_false r : r <> FAILED -> is_FAILED r = false.
Proof. by destruct r. Qed.

Lemma is_FAILED_true r : is_FAILED r = true -> r = FAILED.
Proof. by destruct r. Qed.

(** In partial mode the loop returns nothing but a success of [self]. *)
Lemma SequenceParser_loop_partial call self parsers text results r :
  SequenceParser_loop call self parsers text true results = Return r ->
  exists gathered, r = Node self gathered.
Proof.
  revert text results.
  induction parsers as [|parser rest IH]; intros text results; simpl.
  - intros [= <-]. by eexists.
  - destruct (call parser text true) as [result| | |]; simpl; try done.
    destruct (is_FAILED result).
    + intros [= <-]. by eexists.
    + destruct (ParseResult_length result) as [n| | |]; simpl; try done.
      apply IH.
Qed.

(** The loop when the children [pre] succeed and the next one fails. *)
Lemma SequenceParser_loop_stops h self pre Pk post text results rest :
  gathers h text pre results rest ->
  parse_returns h Pk rest true FAILED ->
  exists fuel, forall fuel' partially acc,
    fuel <= fuel' ->
    SequenceParser_loop (parse fuel' h) self (pre ++ Pk :: post) text
      partially acc
    = Return (if partially then Node self (acc ++ results) else FAILED).
Proof.
  intros Hpre [fuelk Hk].
  induction Hpre as [text|text parser parsers result n results rest
                          [fuel1 Hhead] Hok Hlen _ IH].
  - exists fuelk. intros fuel' partially acc Hle. simpl.
    rewrite (parse_returns_mono _ _ _ _ _ _ _ Hle Hk). simpl.
    rewrite app_nil_r. by destruct partially.
  - destruct (IH Hk) as [fuel2 Hrest].
    exists (fuel1 `max` fuel2). intros fuel' partially acc Hle. simpl.
    rewrite (parse_returns_mono fuel1 fuel' _ _ _ _ _ ltac:(lia) Hhead).
    simpl. rewrite (is_FAILED_false _ Hok), Hlen. simpl.
    rewrite Hrest by lia. by rewrite <- app_assoc.
Qed.

(** C3.  When the children before [Pk] succeed one after the other and
    [Pk], tried on the text they leave, fails, the sequence parser in
    partial mode returns a success whose payload is exactly the results
    gathered before [Pk], and in total mode it returns the sentinel. *)
Theorem SequenceParser_early_stop (h : heap) (self : ref)
    (pre : list ref) (Pk : ref) (post : list ref) (text : string)
    (results : list ParseResult) (rest : string) :
  h !! self = Some (SequenceParser (pre ++ Pk :: post)) ->
  gathers h text pre results rest ->
  parse_returns h Pk rest true FAILED ->
  parse_returns h self text true (Node self results)
  /\ parse_returns h self text false FAILED.
Proof.
  intros Hself Hpre Hk.
  destruct (SequenceParser_loop_stops h self pre Pk post text results rest
              Hpre Hk) as [fuel Hloop].
  split; exists (S fuel); rewrite parse_unfold, Hself;
    unfold SequenceParser_parse; by rewrite Hloop.
Qed.

(** C9.  In partial mode a sequence parser never returns the sentinel:
    whatever it returns is a success of its own; when its first child
    fails, or when it has no child, that success has no children. *)
Theorem SequenceParser_partial_succeeds (h : heap) (self : ref)
    (parsers : list ref) (text : string) :
  h !! self = Some (SequenceParser parsers) ->
  (forall r, parse_returns h self text true r ->
     r <> FAILED /\ exists gathered, r = Node self gathered)
  /\ (forall first others, parsers = first :: others ->
        parse_returns h first text true FAILED ->
        parse_returns h self text true (Node self []))
  /\ (parsers = [] -> parse_returns h self text true (Node self [])).
Proof.
  intros Hself. split_and!.
  - intros r [[|fuel] Hr]; [done|].
    rewrite parse_unfold, Hself in Hr.
    apply SequenceParser_loop_partial in Hr as [gathered ->].
    split; [done | by eexists].
  - intros first others -> Hfirst.
    destruct (SequenceParser_loop_stops h self [] first others text [] text
                (gathers_nil h text) Hfirst) as [fuel Hloop].
    exists (S fuel). rewrite parse_unfold, Hself.
    unfold SequenceParser_parse. by rewrite Hloop.
  - intros ->. exists 1. by rewrite parse_unfold, Hself.
Qed.

End Sequence.

(** Digits, a plus sign, digits again, on ["12+"]: the third child fails. *)
Lemma SequenceParser_early_stop_witness :
  let h := [RegexParser "[0-9]+"; LiteralParser "+"; SequenceParser [0; 1; 0]] in
  h !! 2 = Some (SequenceParser ([0; 1] ++ 0 :: []))
  /\ @gathers digits_regex h "12+" [0; 1] [Leaf 0 "12"; Leaf 1 "+"] ""
  /\ @parse_returns digits_regex h 0 "" true FAILED
  /\ @parse_returns digits_regex h 2 "12+" true
       (Node 2 [Leaf 0 "12"; Leaf 1 "+"])
  /\ @parse_returns digits_regex h 2 "12+" false FAILED.
Proof.
  intros h.
  assert (@gathers digits_regex h "12+" [0; 1] [Leaf 0 "12"; Leaf 1 "+"] "")
    as Hpre.
  { apply (gathers_cons h "12+" 0 [1] (Leaf 0 "12") 2 [Leaf 1 "+"] "");
      [by exists 1 | done | done |].
    apply (gathers_cons h "+" 1 [] (Leaf 1 "+") 1 [] "");
      [by exists 1 | done | done |].
    apply gathers_nil. }
  assert (@parse_returns digits_regex h 0 "" true FAILED) as Hk by (by exists 1).
  split; [reflexivity|]. split; [exact Hpre|]. split; [exact Hk|].
  exact (@SequenceParser_early_stop digits_regex h 2 [0; 1] 0 [] "12+"
           [Leaf 0 "12"; Leaf 1 "+"] "" eq_refl Hpre Hk).
Defined.

(** A sequence of a literal ["a"] on ["b"]: the first child fails. *)
Lemma SequenceParser_partial_succeeds_witness :
  let h := [LiteralParser "a"; SequenceParser [0]] in
  h !! 1 = Some (SequenceParser [0])
  /\ @parse_returns digits_regex h 0 "b" true FAILED
  /\ @parse_returns digits_regex h 1 "b" true (Node 1 []).
Proof.
  intros h.
  assert (@parse_returns digits_regex h 0 "b" true FAILED) as Hfirst
    by (by exists 1).
  split; [reflexivity|]. split; [exact Hfirst|].
  exact (proj1 (proj2 (@SequenceParser_partial_succeeds digits_regex h 1 [0]
                         "b" eq_refl)) 0 [] eq_refl Hfirst).
Defined.

(** ** [GroupParser.parse] *)

Section Group.

Context {regex : Regex}.

(** The children in [pre] fail and the next one succeeds. *)
Lemma GroupParser_parse_first call pre p post text partially r :
  Forall (fun q => call q text partially = Return FAILED) pre ->
  call p text partially = Return r ->
  r <> FAILED ->
  GroupParser_parse call (pre ++ p :: post) text partially = Return r.
Proof.
  intros Hpre Hp Hr.
  induction Hpre as [|q pre Hq _ IH]; simpl.
  - rewrite Hp. simpl. by rewrite is_FAILED_false.
  - rewrite Hq. simpl. exact IH.
Qed.

Lemma GroupParser_parse_all_fail call parsers text partially :
  Forall (fun q => call q text partially = Return FAILED) parsers ->
  GroupParser_parse call parsers text partially = Return FAILED.
Proof.
  induction 1 as [|q parsers Hq _ IH]; simpl; [done|].
  rewrite Hq. simpl. exact IH.
Qed.

(** What a returning loop went through. *)
Lemma GroupParser_parse_inv call parsers text partially r :
  GroupParser_parse call parsers text partially = Return r ->
  (r = FAILED
   /\ Forall (fun q => call q text partially = Return FAILED) parsers)
  \/ (r <> FAILED
      /\ exists pre p post,
           parsers = pre ++ p :: post
           /\ Forall (fun q => call q text partially = Return FAILED) pre
           /\ call p text partially = Return r).
Proof.
  induction parsers as [|q parsers IH]; simpl.
  - intros [= <-]. by left.
  - destruct (call q text partially) as [result| | |] eqn:Hq; simpl; try done.
    destruct (is_FAILED result) eqn:Hfailed; simpl.
    + apply is_FAILED_true in Hfailed as ->.
      intros [[-> Hall]|[Hr (pre & p & post & -> & Hpre & Hp)]]%IH.
      * left. split; [done | by constructor].
      * right. split; [done|]. exists (q :: pre), p, post.
        split; [done|]. split; [by constructor | done].
    + intros [= <-]. right. split; [by destruct result|].
      exists [], q, parsers. split; [done|]. split; [constructor | done].
Qed.

(** Children that each fail with some fuel all fail with one fuel. *)
Lemma Forall_parse_returns_fuel h parsers text partially :
  Forall (fun q => parse_returns h q text partially FAILED) parsers ->
  exists fuel,
    Forall (fun q => parse fuel h q text partially = Return FAILED) parsers.
Proof.
  induction 1 as [|q parsers [fuel1 Hq] _ [fuel2 IH]].
  - by exists 0.
  - exists (fuel1 `max` fuel2). constructor.
    + apply (parse_returns_mono fuel1); [lia | done].
    + eapply Forall_impl; [exact IH|]. intros p Hp.
      apply (parse_returns_mono fuel2); [lia | done].
Qed.

Lemma Forall_parse_returns h fuel parsers text partially :
  Forall (fun q => parse fuel h q text partially = Return FAILED) parsers ->
  Forall (fun q => parse_returns h q text partially FAILED) parsers.
Proof.
  intros Hall. eapply Forall_impl; [exact Hall|].
  intros q Hq. by exists fuel.
Qed.

(** C4.  A group parser tries its children in order with the caller's mode
    flag and returns the result of the first child that does not fail, as
    that child returns it; it returns the sentinel exactly when every child
    fails.  With two children of which the first succeeds, the result is
    the first child's, whatever the second would do. *)
Theorem GroupParser_first_match (h : heap) (g : ref) (parsers : list ref)
    (text : string) (partially : bool) :
  h !! g = Some (GroupParser parsers) ->
  (forall r, r <> FAILED ->
     (parse_returns h g text partially r
      <-> exists pre p post,
            parsers = pre ++ p :: post
            /\ Forall (fun q => parse_returns h q text partially FAILED) pre
            /\ parse_returns h p text partially r))
  /\ (parse_returns h g text partially FAILED
      <-> Forall (fun q => parse_returns h q text partially FAILED) parsers)
  /\ (forall A B rA,
        parsers = [A; B] ->
        parse_returns h A text partially rA ->
        rA <> FAILED ->
        parse_returns h g text partially rA
        /\ forall r, parse_returns h g text partially r -> r = rA).
Proof.
  intros Hg.
  assert (forall pre p post r,
            parsers = pre ++ p :: post ->
            Forall (fun q => parse_returns h q text partially FAILED) pre ->
            parse_returns h p text partially r ->
            r <> FAILED ->
            parse_returns h g text partially r) as Hfirst.
  { intros pre p post r -> [fuel1 Hpre]%Forall_parse_returns_fuel [fuel2 Hp] Hr.
    exists (S (fuel1 `max` fuel2)). rewrite parse_unfold, Hg.
    apply GroupParser_parse_first; [|by apply (parse_returns_mono fuel2); [lia|]|done].
    eapply Forall_impl; [exact Hpre|]. intros q Hq.
    apply (parse_returns_mono fuel1); [lia | done]. }
  split_and!.
  - intros r Hr. split.
    + intros [[|fuel] Hret]; [done|].
      rewrite parse_unfold, Hg in Hret.
      apply GroupParser_parse_inv in Hret
        as [[-> _]|[_ (pre & p & post & -> & Hpre & Hp)]]; [done|].
      exists pre, p, post. split; [done|].
      split; [by eapply Forall_parse_returns | by exists fuel].
    + intros (pre & p & post & Hsplit & Hpre & Hp). by eapply Hfirst.
  - split.
    + intros [[|fuel] Hret]; [done|].
      rewrite parse_unfold, Hg in Hret.
      apply GroupParser_parse_inv in Hret as [[_ Hall]|[Hr _]]; [|done].
      by eapply Forall_parse_returns.
    + intros [fuel Hall]%Forall_parse_returns_fuel.
      exists (S fuel). rewrite parse_unfold, Hg.
      by apply GroupParser_parse_all_fail.
  - intros A B rA -> HA HrA.
    assert (parse_returns h g text partially rA) as HgA
      by (by apply (Hfirst [] A [B] rA)).
    split; [exact HgA|]. intros r Hr.
    by apply (parse_returns_unique h g text partially).
Qed.

End Group.

(** Two literals that both match ["a"], told apart by their references. *)
Lemma GroupParser_first_match_witness :
  let h := [LiteralParser "a"; LiteralParser "a"; GroupParser [0; 1]] in
  h !! 2 = Some (GroupParser [0; 1])
  /\ @parse_returns digits_regex h 0 "a" false (Leaf 0 "a")
  /\ Leaf 0 "a" <> FAILED
  /\ @parse_returns digits_regex h 2 "a" false (Leaf 0 "a")
  /\ forall r, @parse_returns digits_regex h 2 "a" false r -> r = Leaf 0 "a".
Proof.
  intros h.
  assert (@parse_returns digits_regex h 0 "a" false (Leaf 0 "a")) as HA
    by (by exists 1).
  split; [reflexivity|]. split; [exact HA|]. split; [discriminate|].
  exact (proj2 (proj2 (@GroupParser_first_match digits_regex h 2 [0; 1] "a"
                         false eq_refl))
           0 1 (Leaf 0 "a") eq_refl HA ltac:(discriminate)).
Defined.

(** ** The failure sentinel *)

Section Failure.

Context {regex : Regex}.

(** In either mode the sequence loop returns the sentinel or a success of
    [self]. *)
Lemma SequenceParser_loop_result call self parsers text partially results r :
  SequenceParser_loop call self parsers text partially results = Return r ->
  r = FAILED \/ exists gathered, r = Node self gathered.
Proof.
  assert (forall text results,
            SequenceParser_finish self text partially results = FAILED
            \/ exists gathered,
                 SequenceParser_finish self text partially results
                 = Node self gathered) as Hfinish.
  { intros t rs. unfold SequenceParser_finish.
    destruct (negb partially && (0 <? String.length t)); [by left|].
    right. by eexists. }
  revert text results.
  induction parsers as [|parser rest IH]; intros text results; simpl.
  - intros [= <-]. apply Hfinish.
  - destruct (call parser text true) as [result| | |]; simpl; try done.
    destruct (is_FAILED result).
    + destruct (negb partially); intros [= <-]; [by left | apply Hfinish].
    + destruct (ParseResult_length result) as [n| | |]; simpl; try done.
      apply IH.
Qed.

Lemma parse_result_built fuel h p text partially r :
  parse fuel h p text partially = Return r ->
  r = FAILED \/ built_by h r.
Proof.
  revert p text partially r.
  induction fuel as [|fuel IH]; intros p text partially r; [done|].
  rewrite parse_unfold.
  destruct (h !! p) as [[literal|pattern|parsers|parsers]|] eqn:Hp; try done.
  - intros [= <-]. unfold LiteralParser_parse.
    destruct (negb (String.prefix literal text)); [by left|].
    destruct (negb partially && negb (String.eqb text literal)); [by left|].
    right. simpl. left. by exists literal.
  - intros [= <-]. unfold RegexParser_parse.
    destruct (re_match pattern text) as [e|]; [|by left].
    destruct partially; [right; simpl; right; by exists pattern|].
    destruct (negb (String.eqb text (slice_to e text))); [by left|].
    right. simpl. right. by exists pattern.
  - intros [->|[gathered ->]]%SequenceParser_loop_result; [by left|].
    right. simpl. by exists parsers.
  - intros [[-> _]|[_ (pre & q & post & _ & _ & Hq)]]%GroupParser_parse_inv;
      [by left | by eapply IH].
Qed.

(** The loop when every child succeeds. *)
Lemma SequenceParser_loop_all h self parsers text results rest :
  gathers h text parsers results rest ->
  exists fuel, forall fuel' partially acc,
    fuel <= fuel' ->
    SequenceParser_loop (parse fuel' h) self parsers text partially acc
    = Return (SequenceParser_finish self rest partially (acc ++ results)).
Proof.
  induction 1 as [text|text parser parsers result n results rest
                      [fuel1 Hhead] Hok Hlen _ [fuel2 IH]].
  - exists 0. intros fuel' partially acc _. simpl. by rewrite app_nil_r.
  - exists (fuel1 `max` fuel2). intros fuel' partially acc Hle. simpl.
    rewrite (parse_returns_mono fuel1 fuel' _ _ _ _ _ ltac:(lia) Hhead).
    simpl. rewrite (is_FAILED_false _ Hok), Hlen. simpl.
    rewrite IH by lia. by rewrite <- app_assoc.
Qed.

(** What a returning loop went through: every child succeeded, or the
    children before some [Pk] succeeded and [Pk] failed. *)
Lemma SequenceParser_loop_returns fuel h self parsers text partially acc r :
  SequenceParser_loop (parse fuel h) self parsers text partially acc = Return r ->
  (exists results rest,
     gathers h text parsers results rest
     /\ r = SequenceParser_finish self rest partially (acc ++ results))
  \/ (exists pre Pk post results rest,
        parsers = pre ++ Pk :: post
        /\ gathers h text pre results rest
        /\ parse fuel h Pk rest true = Return FAILED
        /\ r = if partially then Node self (acc ++ results) else FAILED).
Proof.
  revert text acc.
  induction parsers as [|parser others IH]; intros text acc; simpl.
  - intros [= <-]. left. exists [], text.
    split; [constructor | by rewrite app_nil_r].
  - destruct (parse fuel h parser text true) as [result| | |] eqn:Hq; simpl;
      try done.
    destruct result as [|c parsed|c parsed]; simpl; [| |done].
    + intros Hr. right. exists [], parser, others, [], text.
      split; [done|]. split; [constructor|]. split; [done|].
      rewrite app_nil_r. by destruct partially; injection Hr as <-.
    + intros [(results & rest & Hall & ->)
             |(pre & Pk & post & results & rest & -> & Hpre & Hk & ->)]%IH.
      * left. exists (Leaf c parsed :: results), rest.
        split; [|by rewrite <- app_assoc].
        eapply gathers_cons; [by exists fuel | done | done | exact Hall].
      * right. exists (parser :: pre), Pk, post, (Leaf c parsed :: results), rest.
        split; [done|]. split; [|by rewrite <- app_assoc].
        eapply gathers_cons; [by exists fuel | done | done | exact Hpre].
Qed.

Lemma SequenceParser_finish_FAILED self text partially results :
  SequenceParser_finish self text partially results = FAILED
  <-> partially = false /\ text <> "".
Proof.
  unfold SequenceParser_finish. destruct partially, text; simpl; split;
    try done; by intros [? ?].
Qed.

(** C8.  The sentinel has length 0, no parser and no payload, and no
    [parse] method builds it as a success; whatever a call of [parse]
    returns that is not a success built by a parser of the heap is the
    sentinel itself.  Every failing call returns it, for each kind of
    parser: a literal parser when the text does not start with the literal,
    or in total mode differs from it; a pattern parser when there is no
    match, or in total mode the match stops short of the end; a sequence
    parser in total mode when a child fails after the children before it
    succeeded, or when all children succeed and text is left; a group
    parser when all its children fail.  These are the only calls that
    return the sentinel. *)
Theorem failure_is_the_sentinel :
  ParseResult_length FAILED = Return 0
  /\ ParseResult_parser FAILED = None
  /\ ParseResult_parsed FAILED = ParsedNone
  /\ (forall h, ~ built_by h FAILED)
  /\ (forall h r, built_by h r ->
        ParseResult_parser r <> None /\ ParseResult_parsed r <> ParsedNone)
  /\ (forall h p text partially r,
        parse_returns h p text partially r ->
        ~ built_by h r ->
        r = FAILED)
  /\ (forall h p literal text partially,
        h !! p = Some (LiteralParser literal) ->
        (String.prefix literal text = false
         \/ (partially = false /\ text <> literal))
        <-> parse_returns h p text partially FAILED)
  /\ (forall h p pattern text partially,
        h !! p = Some (RegexParser pattern) ->
        (re_match pattern text = None
         \/ (partially = false
             /\ exists e, re_match pattern text = Some e
                          /\ e < String.length text))
        <-> parse_returns h p text partially FAILED)
  /\ (forall h p parsers text partially,
        h !! p = Some (SequenceParser parsers) ->
        (partially = false
         /\ ((exists pre Pk post results rest,
                parsers = pre ++ Pk :: post
                /\ gathers h text pre results rest
                /\ parse_returns h Pk rest true FAILED)
             \/ (exists results rest,
                   gathers h text parsers results rest /\ rest <> "")))
        <-> parse_returns h p text partially FAILED)
  /\ (forall h p parsers text partially,
        h !! p = Some (GroupParser parsers) ->
        Forall (fun q => parse_returns h q text partially FAILED) parsers
        <-> parse_returns h p text partially FAILED).
Proof.
  split_and!; try done.
  - by intros h Hbuilt.
  - intros h r Hr. by destruct r.
  - intros h p text partially r [fuel Hr] Hnot.
    by destruct (parse_result_built fuel h p text partially r Hr).
  - intros h p literal text partially Hp.
    assert (parse_returns h p text partially FAILED
            <-> LiteralParser_parse p literal text partially = FAILED) as ->.
    { split.
      - intros [[|fuel] Hr]; [done|]. rewrite parse_unfold, Hp in Hr.
        congruence.
      - intros Hr. exists 1. by rewrite parse_unfold, Hp, Hr. }
    unfold LiteralParser_parse.
    destruct (String.prefix literal text); simpl; [|by split; [|left]].
    destruct partially; simpl.
    + split; [by intros [|[? _]] | done].
    + destruct (String.eqb_spec text literal) as [->|Hne]; simpl.
      * split; [by intros [|[_ ?]] | done].
      * split; [done | intros _; by right].
  - intros h p pattern text partially Hp.
    assert (parse_returns h p text partially FAILED
            <-> RegexParser_parse p pattern text partially = FAILED) as ->.
    { split.
      - intros [[|fuel] Hr]; [done|]. rewrite parse_unfold, Hp in Hr.
        congruence.
      - intros Hr. exists 1. by rewrite parse_unfold, Hp, Hr. }
    unfold RegexParser_parse.
    destruct (re_match pattern text) as [e|] eqn:Hmatch; [|by split; [|left]].
    pose proof (re_match_end _ _ _ Hmatch) as Hle.
    destruct partially.
    + split; [by intros [|[? _]] | done].
    + rewrite (eqb_slice_to e text Hle). case_bool_decide as He; simpl.
      * split; [|done]. intros [|[_ (e' & [= <-] & Hlt)]]; [done | lia].
      * split; [done|]. intros _. right. split; [done|]. exists e.
        split; [done | lia].
  - intros h p parsers text partially Hp. split.
    + intros [-> [(pre & Pk & post & results & rest & -> & Hpre & Hk)
                 |(results & rest & Hall & Hrest)]].
      * destruct (SequenceParser_loop_stops h p pre Pk post text results rest
                    Hpre Hk) as [fuel Hloop].
        exists (S fuel). rewrite parse_unfold, Hp.
        unfold SequenceParser_parse. by rewrite Hloop.
      * destruct (SequenceParser_loop_all h p parsers text results rest Hall)
          as [fuel Hloop].
        exists (S fuel). rewrite parse_unfold, Hp.
        unfold SequenceParser_parse. rewrite Hloop by done. f_equal.
        by apply SequenceParser_finish_FAILED.
    + intros [[|fuel] Hr]; [done|]. rewrite parse_unfold, Hp in Hr.
      apply SequenceParser_loop_returns in Hr
        as [(results & rest & Hall & Hr)
           |(pre & Pk & post & results & rest & -> & Hpre & Hk & Hr)].
      * symmetry in Hr. apply SequenceParser_finish_FAILED in Hr as [-> Hrest].
        split; [done|]. right. by exists results, rest.
      * destruct partially; [done|]. split; [done|]. left.
        exists pre, Pk, post, results, rest.
        split; [done|]. split; [done|]. by exists fuel.
  - intros h p parsers text partially Hp. split.
    + intros [fuel Hall]%Forall_parse_returns_fuel.
      exists (S fuel). rewrite parse_unfold, Hp.
      by apply GroupParser_parse_all_fail.
    + intros [[|fuel] Hr]; [done|]. rewrite parse_unfold, Hp in Hr.
      apply GroupParser_parse_inv in Hr as [[_ Hall]|[Hr _]]; [|done].
      by eapply Forall_parse_returns.
Qed.

End Failure.

(** A literal, a pattern, a sequence (in total mode, with text left over)
    and a group, each on a text it rejects. *)
Lemma failure_is_the_sentinel_witness :
  let h := [LiteralParser "a"; RegexParser "[0-9]+"; SequenceParser [0];
            GroupParser [0; 1]] in
  (String.prefix "a" "b" = false
   /\ @parse_returns digits_regex h 0 "b" true FAILED)
  /\ (@re_match digits_regex "[0-9]+" "b" = None
      /\ @parse_returns digits_regex h 1 "b" true FAILED)
  /\ (@gathers digits_regex h "ab" [0] [Leaf 0 "a"] "b"
      /\ "b" <> ""
      /\ @parse_returns digits_regex h 2 "ab" false FAILED)
  /\ (@parse_returns digits_regex h 3 "b" true FAILED)
  /\ ~ built_by h FAILED
  /\ built_by h (Leaf 0 "a")
  /\ ParseResult_parser (Leaf 0 "a") <> None.
Proof.
  intros h.
  pose proof (@failure_is_the_sentinel digits_regex)
    as (_ & _ & _ & Hnot & Hcarries & _ & Hliteral & Hpattern & Hsequence
        & Hgroup).
  assert (@parse_returns digits_regex h 0 "b" true FAILED) as H0
    by (apply (Hliteral h 0 "a" "b" true eq_refl); by left).
  assert (@parse_returns digits_regex h 1 "b" true FAILED) as H1
    by (apply (Hpattern h 1 "[0-9]+" "b" true eq_refl); by left).
  assert (@gathers digits_regex h "ab" [0] [Leaf 0 "a"] "b") as Hall.
  { apply (gathers_cons h "ab" 0 [] (Leaf 0 "a") 1 [] "b");
      [by exists 1 | done | done | apply gathers_nil]. }
  assert (built_by h (Leaf 0 "a")) as Hbuilt by (left; by exists "a").
  split; [by split|]. split; [by split|].
  split.
  { split; [exact Hall|]. split; [done|].
    apply (Hsequence h 2 [0] "ab" false eq_refl).
    split; [done|]. right. by exists [Leaf 0 "a"], "b". }
  split.
  { apply (Hgroup h 3 [0; 1] "b" true eq_refl).
    constructor; [exact H0|]. constructor; [exact H1 | constructor]. }
  split; [exact (Hnot h)|]. split; [exact Hbuilt|].
  exact (proj1 (Hcarries h _ Hbuilt)).
Defined.

(** ** The recursion scenario *)

Section Recursion.

Import ExprGrammar.

(** The innermost sequence call, on ["3"], runs out of children that match
    and returns a success with a list payload. *)
Lemma sum_on_3 :
  @parse digits_regex 2 grammar sum "3" true = Return (Node sum [Leaf digits "3"]).
Proof. reflexivity. Qed.

(** With the specification's [length] in the loop the scenario is as the
    specification says: a success that covers the five characters. *)
Lemma expr_parse_spec :
  exists r,
    @parse_spec digits_regex 7 grammar expr "1+2+3" false = Return r
    /\ r <> FAILED
    /\ length_spec r = 5.
Proof. eexists. split; [reflexivity|]. split; [discriminate | reflexivity]. Qed.

(** C2.  On the self-referential grammar, [expr.parse("1+2+3")] in total
    mode ends, but not by returning a success of length 5: the sequence
    loop asks the result of the nested [expr] call, which has a list
    payload, for its [length], and [NotImplementedError] is raised. *)
Theorem expr_parse_raises :
  @parse_ends digits_regex grammar expr "1+2+3" false (Raise NotImplementedError)
  /\ (forall r, ~ @parse_returns digits_regex grammar expr "1+2+3" false r)
  /\ (forall fuel,
        7 <= fuel ->
        @parse digits_regex fuel grammar expr "1+2+3" false
        = Raise NotImplementedError).
Proof.
  assert (@parse digits_regex 7 grammar expr "1+2+3" false
          = Raise NotImplementedError) as H7 by reflexivity.
  assert (@parse_ends digits_regex grammar expr "1+2+3" false
            (Raise NotImplementedError)) as Hends
    by (split; [done | by exists 7]).
  split_and!.
  - exact Hends.
  - intros r Hr%parse_returns_ends.
    by pose proof (parse_ends_unique _ _ _ _ _ _ Hends Hr).
  - intros fuel Hle. rewrite (parse_fuel_mono 7); [done | done | by rewrite H7].
Qed.

Lemma expr_parse_raises_witness :
  7 <= 9
  /\ @parse digits_regex 9 grammar expr "1+2+3" false = Raise NotImplementedError.
Proof.
  split; [lia|].
  exact (proj2 (proj2 expr_parse_raises) 9 ltac:(lia)).
Defined.

End Recursion.

(** ** The end-to-end scenario of the specification *)

Example sum_12_7 :
  @parse digits_regex 2 SumGrammar.grammar SumGrammar.sum "12+7" false
  = Return (Node 2 [Leaf 0 "12"; Leaf 1 "+"; Leaf 0 "7"]).
Proof. reflexivity. Qed.

Example sum_12_7_lengths :
  map ParseResult_length [Leaf 0 "12"; Leaf 1 "+"; Leaf 0 "7"]
  = [Return 2; Return 1; Return 1].
Proof. reflexivity. Qed.

Example sum_12_7x :
  @parse digits_regex 2 SumGrammar.grammar SumGrammar.sum "12+7x" false
  = Return FAILED.
Proof. reflexivity. Qed.

(** * Further properties of the engine *)

(** ** Sequences whose children all match *)

Section SequenceAll.

Context {regex : Regex}.

(** Results that were gathered have a string payload: the loop read the
    [length] of each. *)
Lemma gathers_leaves h text parsers results rest :
  gathers h text parsers results rest ->
  Forall (fun child => is_Leaf child = true) results.
Proof.
  induction 1 as [|text parser parsers result n results rest _ Hok Hlen _ IH];
    constructor; [|done].
  by destruct result.
Qed.

(** X1.  When every child of a sequence parser returns a success with a
    string payload (one whose [length] the loop can read), each on the
    text the one before left, the parser returns a success with exactly
    their results, in order: always in partial mode, and in total mode
    when no text is left; with text left over a total-mode call returns
    the sentinel.  A total-mode success arises in no other way. *)
Theorem SequenceParser_all_match (h : heap) (self : ref)
    (parsers : list ref) (text : string) :
  h !! self = Some (SequenceParser parsers) ->
  (forall results rest,
     gathers h text parsers results rest ->
     Forall (fun child => is_Leaf child = true) results
     /\ parse_returns h self text true (Node self results)
     /\ parse_returns h self text false
          (if bool_decide (rest = "") then Node self results else FAILED))
  /\ (forall r,
        parse_returns h self text false r /\ r <> FAILED
        <-> exists results,
              gathers h text parsers results ""
              /\ Forall (fun child => is_Leaf child = true) results
              /\ r = Node self results).
Proof.
  intros Hself.
  assert (forall results rest partially,
            gathers h text parsers results rest ->
            parse_returns h self text partially
              (SequenceParser_finish self rest partially results)) as Hall.
  { intros results rest partially Hgathers.
    destruct (SequenceParser_loop_all h self parsers text results rest
                Hgathers) as [fuel Hloop].
    exists (S fuel). rewrite parse_unfold, Hself.
    unfold SequenceParser_parse. by rewrite Hloop. }
  split.
  - intros results rest Hgathers.
    split; [by eapply gathers_leaves|].
    split; [exact (Hall results rest true Hgathers)|].
    specialize (Hall results rest false Hgathers).
    unfold SequenceParser_finish in Hall. simpl in Hall.
    by destruct rest.
  - intros r. split.
    + intros [[[|fuel] Hr] Hok]; [done|].
      rewrite parse_unfold, Hself in Hr.
      apply SequenceParser_loop_returns in Hr
        as [(results & rest & Hgathers & ->)|(? & ? & ? & ? & ? & _ & _ & _ & ->)];
        [|done].
      destruct rest as [|c rest]; [|done].
      exists results. split; [done|]. split; [by eapply gathers_leaves | done].
    + intros (results & Hgathers & _ & ->). split; [|done].
      exact (Hall results "" false Hgathers).
Qed.

End SequenceAll.

(** Digits, a plus sign, digits, on ["12+7x"]: each child returns a leaf. *)
Lemma SequenceParser_all_match_witness :
  SumGrammar.grammar !! SumGrammar.sum = Some (SequenceParser [0; 1; 0])
  /\ @gathers digits_regex SumGrammar.grammar "12+7x" [0; 1; 0]
       [Leaf 0 "12"; Leaf 1 "+"; Leaf 0 "7"] "x"
  /\ @parse_returns digits_regex SumGrammar.grammar SumGrammar.sum "12+7x" true
       (Node 2 [Leaf 0 "12"; Leaf 1 "+"; Leaf 0 "7"])
  /\ @parse_returns digits_regex SumGrammar.grammar SumGrammar.sum "12+7x" false
       FAILED.
Proof.
  assert (@gathers digits_regex SumGrammar.grammar "12+7x" [0; 1; 0]
            [Leaf 0 "12"; Leaf 1 "+"; Leaf 0 "7"] "x") as Hall.
  { apply (gathers_cons _ "12+7x" 0 _ (Leaf 0 "12") 2 _ "x");
      [by exists 1 | done | done |].
    apply (gathers_cons _ "+7x" 1 _ (Leaf 1 "+") 1 _ "x");
      [by exists 1 | done | done |].
    apply (gathers_cons _ "7x" 0 _ (Leaf 0 "7") 1 _ "x");
      [by exists 1 | done | done |].
    apply gathers_nil. }
  split; [reflexivity|]. split; [exact Hall|].
  exact (proj2 (proj1 (@SequenceParser_all_match digits_regex
                         SumGrammar.grammar SumGrammar.sum [0; 1; 0] "12+7x"
                         eq_refl) _ "x" Hall)).
Defined.

(** ** Total mode against partial mode *)

Section Modes.

Context {regex : Regex}.

Lemma SequenceParser_loop_modes call self parsers text results r :
  SequenceParser_loop call self parsers text false results = Return r ->
  exists r',
    SequenceParser_loop call self parsers text true results = Return r'
    /\ r' <> FAILED
    /\ (r <> FAILED -> r' = r).
Proof.
  revert text results.
  induction parsers as [|parser rest IH]; intros text results; simpl.
  - intros [= <-]. exists (Node self results). split; [done|].
    split; [done|]. unfold SequenceParser_finish. simpl.
    by destruct (0 <? String.length text).
  - destruct (call parser text true) as [result| | |]; simpl; try done.
    destruct (is_FAILED result).
    + intros [= <-]. by exists (Node self results).
    + destruct (ParseResult_length result) as [n| | |]; simpl; try done.
      apply IH.
Qed.

Lemma GroupParser_parse_modes call parsers text r :
  (forall q rq, call q text false = Return rq ->
     exists rq', call q text true = Return rq'
                 /\ (rq <> FAILED -> rq' <> FAILED)) ->
  GroupParser_parse call parsers text false = Return r ->
  exists r',
    GroupParser_parse call parsers text true = Return r'
    /\ (r <> FAILED -> r' <> FAILED).
Proof.
  intros Hcall.
  induction parsers as [|q parsers IH]; simpl.
  - intros [= <-]. by exists FAILED.
  - destruct (call q text false) as [rq| | |] eqn:Hq; simpl; try done.
    destruct (Hcall q rq Hq) as (rq' & -> & Hrq'). simpl.
    destruct (is_FAILED rq') eqn:Hfailed'; simpl.
    + apply is_FAILED_true in Hfailed' as ->.
      destruct (is_FAILED rq) eqn:Hfailed; simpl; [exact IH|].
      destruct rq; try done; by destruct Hrq'.
    + intros _. exists rq'. split; [done|]. intros _. by destruct rq'.
Qed.

Lemma parse_modes fuel h p text r :
  parse fuel h p text false = Return r ->
  exists r',
    parse fuel h p text true = Return r'
    /\ (r <> FAILED -> r' <> FAILED).
Proof.
  revert p text r.
  induction fuel as [|fuel IH]; intros p text r; [done|].
  rewrite !parse_unfold.
  destruct (h !! p) as [[literal|pattern|parsers|parsers]|]; try done.
  - intros [= <-]. eexists. split; [done|].
    unfold LiteralParser_parse.
    destruct (negb (String.prefix literal text)); [done|]. simpl.
    by destruct (negb (String.eqb text literal)).
  - intros [= <-]. eexists. split; [done|].
    unfold RegexParser_parse.
    by destruct (re_match pattern text).
  - intros (r' & Hr' & Hok & _)%SequenceParser_loop_modes.
    exists r'. by split.
  - apply GroupParser_parse_modes. intros q rq. apply IH.
Qed.

(** X2.  What matches the whole text also matches as a prefix: when a
    total-mode call returns, the partial-mode call on the same parser and
    text returns too, and it succeeds if the total-mode call did.  For a
    sequence parser the partial-mode call succeeds in any case. *)
Theorem total_match_is_partial_match (h : heap) (p : ref) (text : string)
    (r : ParseResult) :
  parse_returns h p text false r ->
  exists r',
    parse_returns h p text true r'
    /\ (r <> FAILED -> r' <> FAILED)
    /\ (forall parsers, h !! p = Some (SequenceParser parsers) ->
          r' <> FAILED /\ (r <> FAILED -> r' = r)).
Proof.
  intros [fuel Hr].
  destruct (parse_modes fuel h p text r Hr) as (r' & Hr' & Hok).
  exists r'. split; [by exists fuel|]. split; [done|].
  intros parsers Hp. destruct fuel as [|fuel]; [done|].
  rewrite parse_unfold, Hp in Hr, Hr'.
  apply SequenceParser_loop_modes in Hr as (r'' & Hr'' & Hok'' & Hsame).
  unfold SequenceParser_parse in Hr'. rewrite Hr'' in Hr'.
  by injection Hr' as ->.
Qed.

End Modes.

(** The sequence of the end-to-end scenario on ["12+7"]. *)
Lemma total_match_is_partial_match_witness :
  @parse_returns digits_regex SumGrammar.grammar SumGrammar.sum "12+7" false
    (Node 2 [Leaf 0 "12"; Leaf 1 "+"; Leaf 0 "7"])
  /\ exists r',
       @parse_returns digits_regex SumGrammar.grammar SumGrammar.sum "12+7"
         true r'
       /\ r' <> FAILED.
Proof.
  assert (@parse_returns digits_regex SumGrammar.grammar SumGrammar.sum
            "12+7" false (Node 2 [Leaf 0 "12"; Leaf 1 "+"; Leaf 0 "7"])) as Hr
    by (by exists 2).
  split; [exact Hr|].
  destruct (@total_match_is_partial_match digits_regex _ _ _ _ Hr)
    as (r' & Hr' & Hok & _).
  exists r'. split; [exact Hr'|]. apply Hok. discriminate.
Defined.

(** ** What a success covers *)

Lemma app_assoc_string (a b c : string) : (a +:+ b) +:+ c = a +:+ (b +:+ c).
Proof. induction a as [|x a IH]; [done | by rewrite !app_cons, IH]. Qed.

Lemma slice_from_app (s rest : string) :
  slice_from (String.length s) (s +:+ rest) = rest.
Proof. induction s as [|c s IH]; [done | exact IH]. Qed.

Lemma slice_to_app (s rest : string) :
  slice_to (String.length s) (s +:+ rest) = s.
Proof.
  induction s as [|c s IH]; [by destruct rest|].
  rewrite app_cons. simpl. by rewrite IH.
Qed.

Lemma slice_to_from (n : nat) (text : string) :
  slice_to n text +:+ slice_from n text = text.
Proof.
  revert text. induction n as [|n IH]; intros [|c text]; simpl; try done.
  by rewrite app_cons, IH.
Qed.

Lemma prefix_split (s text : string) :
  String.prefix s text = true -> exists rest, text = s +:+ rest.
Proof.
  revert text. induction s as [|c s IH]; intros text; [by exists text|].
  destruct text as [|d text]; simpl; [done|].
  destruct (Ascii.ascii_dec c d) as [->|]; [|done].
  intros [rest ->]%IH. by exists rest.
Qed.

Lemma matched_text_snoc self results r :
  matched_text (Node self (results ++ [r]))
  = matched_text (Node self results) +:+ matched_text r.
Proof.
  simpl. induction results as [|x results IH]; simpl.
  - by rewrite app_empty_r.
  - by rewrite IH, app_assoc_string.
Qed.

Section Spans.

Context {regex : Regex}.

(** A result whose [length] can be read is the sentinel or a leaf. *)
Lemma ParseResult_length_Return r n :
  ParseResult_length r = Return n ->
  r <> FAILED ->
  exists parser, r = Leaf parser (matched_text r)
                 /\ n = String.length (matched_text r).
Proof. destruct r as [|parser parsed|]; try done. intros [= <-] _. by exists parser. Qed.

Lemma SequenceParser_finish_success self text partially results r :
  SequenceParser_finish self text partially results = r ->
  r <> FAILED ->
  r = Node self results /\ (partially = false -> text = "").
Proof.
  unfold SequenceParser_finish. intros <-.
  destruct partially; simpl; [done|].
  destruct text; simpl; [done|]. done.
Qed.

Lemma SequenceParser_loop_spans call self parsers text partially results r :
  (forall q t rq, call q t true = Return rq -> rq <> FAILED ->
     exists rest, t = matched_text rq +:+ rest) ->
  SequenceParser_loop call self parsers text partially results = Return r ->
  r <> FAILED ->
  exists rest,
    matched_text (Node self results) +:+ text = matched_text r +:+ rest
    /\ (partially = false -> rest = "").
Proof.
  intros Hcall. revert text results.
  induction parsers as [|parser others IH]; intros text results; simpl.
  - intros [= Hr] Hok.
    apply SequenceParser_finish_success in Hr as [-> Hrest]; [|done].
    by exists text.
  - destruct (call parser text true) as [result| | |] eqn:Hq; simpl; try done.
    destruct (is_FAILED result) eqn:Hfailed.
    + destruct (negb partially); intros [= Hr] Hok; [by subst|].
      apply SequenceParser_finish_success in Hr as [-> Hrest]; [|done].
      by exists text.
    + destruct (ParseResult_length result) as [n| | |] eqn:Hlen; simpl;
        try done.
      assert (result <> FAILED) as Hresult by (intros ->; done).
      destruct (Hcall _ _ _ Hq Hresult) as [rest0 ->].
      destruct (ParseResult_length_Return _ _ Hlen Hresult) as (_ & _ & ->).
      rewrite slice_from_app. intros Hr Hok.
      destruct (IH _ _ Hr Hok) as (rest & Heq & Hrest).
      exists rest. split; [|done].
      by rewrite <- Heq, matched_text_snoc, app_assoc_string.
Qed.

Lemma parse_spans fuel h p text partially r :
  parse fuel h p text partially = Return r ->
  r <> FAILED ->
  exists rest,
    text = matched_text r +:+ rest /\ (partially = false -> rest = "").
Proof.
  revert p text partially r.
  induction fuel as [|fuel IH]; intros p text partially r; [done|].
  rewrite parse_unfold.
  destruct (h !! p) as [[literal|pattern|parsers|parsers]|]; try done.
  - intros [= <-]. unfold LiteralParser_parse.
    destruct (String.prefix literal text) eqn:Hprefix; simpl; [|done].
    destruct partially; simpl.
    + intros _. apply prefix_split in Hprefix as [rest ->]. by exists rest.
    + destruct (String.eqb_spec text literal) as [->|]; simpl; [|done].
      intros _. exists "". by rewrite app_empty_r.
  - intros [= <-]. unfold RegexParser_parse.
    destruct (re_match pattern text) as [e|]; [|done].
    destruct partially.
    + intros _. exists (slice_from e text). split; [|done].
      symmetry. apply slice_to_from.
    + destruct (negb (String.eqb text (slice_to e text))); [done|].
      intros _. exists "". by rewrite app_empty_r.
  - intros Hr Hok.
    destruct (SequenceParser_loop_spans (parse fuel h) p parsers text
                partially [] r) as (rest & Heq & Hrest); [|done..|].
    + intros q t rq Hq Hrq. destruct (IH _ _ _ _ Hq Hrq) as (rest & -> & _).
      by exists rest.
    + by exists rest.
  - intros [[-> _]|[_ (pre & q & post & _ & _ & Hq)]]%GroupParser_parse_inv;
      [done | by eapply IH].
Qed.

(** X3.  A success covers a prefix of the text it was parsed from: the
    strings of its leaves, joined in order, are the start of the text, and
    in total mode they are the whole text. *)
Theorem success_covers_prefix (h : heap) (p : ref) (text : string)
    (partially : bool) (r : ParseResult) :
  parse_returns h p text partially r ->
  r <> FAILED ->
  String.prefix (matched_text r) text = true
  /\ (partially = false -> matched_text r = text).
Proof.
  intros [fuel Hr] Hok.
  destruct (parse_spans fuel h p text partially r Hr Hok) as (rest & -> & Hrest).
  split; [apply prefix_app|].
  intros ->%Hrest. by rewrite app_empty_r.
Qed.

(** X4.  The [length] of a returned success, when it can be read, is the
    number of characters to skip: it does not exceed the length of the
    text, the first [length] characters of the text are the matched
    string, and the text is the matched string followed by
    [text[length:]]. *)
Theorem length_is_consumed (h : heap) (p : ref) (text : string)
    (partially : bool) (r : ParseResult) (n : nat) :
  parse_returns h p text partially r ->
  r <> FAILED ->
  ParseResult_length r = Return n ->
  n <= String.length text
  /\ slice_to n text = matched_text r
  /\ text = matched_text r +:+ slice_from n text.
Proof.
  intros [fuel Hr] Hok Hlen.
  destruct (parse_spans fuel h p text partially r Hr Hok) as (rest & -> & _).
  destruct (ParseResult_length_Return r n Hlen Hok) as (_ & _ & ->).
  rewrite slice_from_app, slice_to_app, length_app.
  split; [lia | done].
Qed.

(** The loop returns the sentinel or a success of [self] whose payload
    extends [results] by one leaf per child that matched. *)
Lemma SequenceParser_loop_shape call self parsers text partially results r :
  SequenceParser_loop call self parsers text partially results = Return r ->
  r <> FAILED ->
  exists gathered,
    r = Node self (results ++ gathered)
    /\ Forall (fun child => is_Leaf child = true) gathered
    /\ length gathered <= length parsers
    /\ (partially = false -> length gathered = length parsers).
Proof.
  revert text results.
  induction parsers as [|parser others IH]; intros text results; simpl.
  - intros [= Hr] Hok.
    apply SequenceParser_finish_success in Hr as [-> _]; [|done].
    exists []. by rewrite app_nil_r.
  - destruct (call parser text true) as [result| | |]; simpl; try done.
    destruct (is_FAILED result) eqn:Hfailed.
    + destruct partially; simpl; intros [= Hr] Hok; [|by subst].
      apply SequenceParser_finish_success in Hr as [-> _]; [|done].
      exists []. rewrite app_nil_r. split_and!; [done | done | simpl; lia | done].
    + destruct (ParseResult_length result) as [n| | |] eqn:Hlen; simpl;
        try done.
      intros Hr Hok.
      destruct (IH _ _ Hr Hok) as (gathered & -> & Hleaves & Hle & Heq).
      exists (result :: gathered). rewrite <- app_assoc. split; [done|].
      split; [|simpl; split; [lia | intros Hb; by rewrite Heq]].
      constructor; [|done]. by destruct result.
Qed.

Lemma parse_shape fuel h p text partially q parsed :
  parse fuel h p text partially = Return (Node q parsed) ->
  exists parsers,
    h !! q = Some (SequenceParser parsers)
    /\ Forall (fun child => is_Leaf child = true) parsed
    /\ length parsed <= length parsers
    /\ (partially = false -> length parsed = length parsers).
Proof.
  revert p text partially.
  induction fuel as [|fuel IH]; intros p text partially; [done|].
  rewrite parse_unfold.
  destruct (h !! p) as [[literal|pattern|parsers|parsers]|] eqn:Hp; try done.
  - intros [= Hr]. unfold LiteralParser_parse in Hr.
    destruct (negb (String.prefix literal text)); [done|].
    by destruct (negb partially && negb (String.eqb text literal)).
  - intros [= Hr]. unfold RegexParser_parse in Hr.
    destruct (re_match pattern text) as [e|]; [|done].
    destruct partially; [done|].
    by destruct (negb (String.eqb text (slice_to e text))).
  - intros Hr. apply SequenceParser_loop_shape in Hr
      as (gathered & [= <- <-] & Hshape); [|done].
    by exists parsers.
  - intros [[[=] _]|[_ (pre & c & post & _ & _ & Hc)]]%GroupParser_parse_inv.
    by eapply IH.
Qed.

(** X5.  A returned success with a list payload was built by a sequence
    parser of the heap, and its payload is flat: every child result has a
    string payload, there is at most one per child of that parser, and in
    total mode exactly one per child. *)
Theorem list_payload_shape (h : heap) (p : ref) (text : string)
    (partially : bool) (q : ref) (parsed : list ParseResult) :
  parse_returns h p text partially (Node q parsed) ->
  exists parsers,
    h !! q = Some (SequenceParser parsers)
    /\ Forall (fun child => is_Leaf child = true) parsed
    /\ length parsed <= length parsers
    /\ (partially = false -> length parsed = length parsers).
Proof. intros [fuel Hr]. by eapply parse_shape. Qed.

End Spans.

(** The sequence of the end-to-end scenario on ["12+7x"]. *)
Lemma success_covers_prefix_witness :
  @parse_returns digits_regex SumGrammar.grammar SumGrammar.sum "12+7x" true
    (Node 2 [Leaf 0 "12"; Leaf 1 "+"; Leaf 0 "7"])
  /\ Node 2 [Leaf 0 "12"; Leaf 1 "+"; Leaf 0 "7"] <> FAILED
  /\ String.prefix "12+7" "12+7x" = true.
Proof.
  assert (@parse_returns digits_regex SumGrammar.grammar SumGrammar.sum
            "12+7x" true (Node 2 [Leaf 0 "12"; Leaf 1 "+"; Leaf 0 "7"])) as Hr
    by (by exists 2).
  split; [exact Hr|]. split; [discriminate|].
  exact (proj1 (@success_covers_prefix digits_regex _ _ _ _ _ Hr
                  ltac:(discriminate))).
Defined.

(** The digits pattern on ["12+7"]. *)
Lemma length_is_consumed_witness :
  @parse_returns digits_regex SumGrammar.grammar SumGrammar.digits "12+7" true
    (Leaf 0 "12")
  /\ Leaf 0 "12" <> FAILED
  /\ ParseResult_length (Leaf 0 "12") = Return 2
  /\ 2 <= String.length "12+7"
  /\ slice_to 2 "12+7" = "12"
  /\ "12+7" = "12" +:+ slice_from 2 "12+7".
Proof.
  assert (@parse_returns digits_regex SumGrammar.grammar SumGrammar.digits
            "12+7" true (Leaf 0 "12")) as Hr by (by exists 1).
  split; [exact Hr|]. split; [discriminate|]. split; [reflexivity|].
  exact (@length_is_consumed digits_regex _ _ _ _ _ 2 Hr
           ltac:(discriminate) eq_refl).
Defined.

(** The sequence of the end-to-end scenario on ["12+7"], in total mode. *)
Lemma list_payload_shape_witness :
  @parse_returns digits_regex SumGrammar.grammar SumGrammar.sum "12+7" false
    (Node 2 [Leaf 0 "12"; Leaf 1 "+"; Leaf 0 "7"])
  /\ exists parsers,
       SumGrammar.grammar !! 2 = Some (SequenceParser parsers)
       /\ length [Leaf 0 "12"; Leaf 1 "+"; Leaf 0 "7"] <= length parsers.
Proof.
  assert (@parse_returns digits_regex SumGrammar.grammar SumGrammar.sum
            "12+7" false (Node 2 [Leaf 0 "12"; Leaf 1 "+"; Leaf 0 "7"])) as Hr
    by (by exists 2).
  split; [exact Hr|].
  destruct (@list_payload_shape digits_regex _ _ _ _ _ _ Hr)
    as (parsers & Hq & _ & Hle & _).
  by exists parsers.
Defined.

(** ** Termination *)

Section Termination.

Context {regex : Regex}.

Lemma SequenceParser_loop_completes call self parsers text partially results :
  Forall (fun q => forall t b, completes (call q t b)) parsers ->
  completes (SequenceParser_loop call self parsers text partially results).
Proof.
  intros Hcall. revert text results.
  induction Hcall as [|parser others Hq _ IH]; intros text results; simpl;
    [done|].
  specialize (Hq text true).
  destruct (call parser text true) as [result| | |]; simpl; try done.
  destruct result as [|q parsed|q parsed]; simpl; [|apply IH|done].
  by destruct (negb partially).
Qed.

Lemma GroupParser_parse_completes call parsers text partially :
  Forall (fun q => forall t b, completes (call q t b)) parsers ->
  completes (GroupParser_parse call parsers text partially).
Proof.
  induction 1 as [|parser others Hq _ IH]; simpl; [done|].
  specialize (Hq text partially).
  destruct (call parser text partially) as [result| | |]; simpl; try done.
  by destruct (is_FAILED result).
Qed.

(** X6.  An acyclic grammar cannot loop: when the children of every
    combinator have a smaller rank than the combinator, the call on a
    parser [p] of the heap returns or raises, on every text and in both
    modes, within [rank p + 1] nested calls. *)
Theorem acyclic_grammar_terminates (h : heap) (rank : ref -> nat) (p : ref)
    (text : string) (partially : bool) :
  ranked h rank ->
  p < length h ->
  completes (parse (S (rank p)) h p text partially)
  /\ exists o, parse_ends h p text partially o.
Proof.
  intros Hranked Hp.
  assert (completes (parse (S (rank p)) h p text partially)) as Hdone.
  { remember (rank p) as n eqn:Hn. revert p text partially Hp Hn.
    induction n as [n IH] using lt_wf_ind. intros p text partially Hp ->.
    assert (forall obj, h !! p = Some obj ->
              Forall (fun q => forall t b, completes (parse (rank p) h q t b))
                (Parser_children obj)) as Hchildren.
    { intros obj Hobj. eapply Forall_impl; [exact (Hranked p obj Hobj)|].
      intros q [Hq Hrank] t b. simpl in Hq.
      assert (completes (parse (S (rank q)) h q t b)) as Hdone
        by (by apply (IH (rank q))).
      rewrite (parse_fuel_mono (S (rank q)) (rank p)); [done | lia |].
      intros Hfuel. by rewrite Hfuel in Hdone. }
    rewrite parse_unfold.
    assert (is_Some (h !! p)) as [obj Hobj] by (by apply lookup_lt_is_Some_2).
    specialize (Hchildren obj Hobj).
    unfold ref, heap in *. rewrite Hobj.
    destruct obj as [literal|pattern|parsers|parsers]; try done.
    - by apply SequenceParser_loop_completes.
    - by apply GroupParser_parse_completes. }
  split; [exact Hdone|].
  exists (parse (S (rank p)) h p text partially).
  split; [|by exists (S (rank p))].
  intros Hfuel. by rewrite Hfuel in Hdone.
Qed.

(** The loop of a group parser when the children in [pre] fail or have
    not fuel enough, and the next one has not fuel enough. *)
Lemma GroupParser_parse_starves call pre s post text partially :
  Forall (fun q => call q text partially = Return FAILED
                   \/ call q text partially = OutOfFuel) pre ->
  call s text partially = OutOfFuel ->
  GroupParser_parse call (pre ++ s :: post) text partially = OutOfFuel.
Proof.
  intros Hpre Hs.
  induction Hpre as [|q pre [Hq|Hq] _ IH]; simpl.
  - by rewrite Hs.
  - rewrite Hq. simpl. exact IH.
  - by rewrite Hq.
Qed.

Lemma returns_FAILED_or_starves h q text partially fuel :
  parse_returns h q text partially FAILED ->
  parse fuel h q text partially = Return FAILED
  \/ parse fuel h q text partially = OutOfFuel.
Proof.
  intros Hq%parse_returns_ends.
  destruct (parse fuel h q text partially) as [r| | |] eqn:Hfuel; [| | |by right].
  - left. f_equal.
    assert (parse_ends h q text partially (Return r)) as Hr
      by (split; [done | by exists fuel]).
    pose proof (parse_ends_unique _ _ _ _ _ _ Hq Hr). congruence.
  - assert (parse_ends h q text partially (Raise e)) as Hr
      by (split; [done | by exists fuel]).
    by pose proof (parse_ends_unique _ _ _ _ _ _ Hq Hr).
  - assert (parse_ends h q text partially NoObject) as Hr
      by (split; [done | by exists fuel]).
    by pose proof (parse_ends_unique _ _ _ _ _ _ Hq Hr).
Qed.

(** With any fuel, a left-recursive pair of parsers has not fuel enough. *)
Lemma left_recursion_starves h s g others pre post text fuel :
  h !! s = Some (SequenceParser (g :: others)) ->
  h !! g = Some (GroupParser (pre ++ s :: post)) ->
  Forall (fun q => parse_returns h q text true FAILED) pre ->
  (forall partially, parse fuel h s text partially = OutOfFuel)
  /\ parse fuel h g text true = OutOfFuel.
Proof.
  intros Hs Hg Hpre.
  induction fuel as [|fuel [IHs IHg]]; [done|]. split.
  - intros partially. rewrite parse_unfold, Hs.
    unfold SequenceParser_parse. simpl. by rewrite IHg.
  - rewrite parse_unfold, Hg. apply GroupParser_parse_starves; [|apply IHs].
    eapply Forall_impl; [exact Hpre|]. intros q Hq.
    by apply returns_FAILED_or_starves.
Qed.

(** X7.  Left recursion exceeds every recursion depth.  When the first
    child of a sequence parser [s] is a group parser [g], and [g] reaches
    [s] after children that all fail on the text in partial mode, then
    whatever number of nested [parse] calls is allowed, the call of [s] on
    that text, in either mode, uses them all up before it returns anything
    or raises [NotImplementedError], and so does the partial-mode call of
    [g]; so does the total-mode call of [g] when those children also fail
    in total mode.  No result is ever produced; the bound being CPython's
    recursion limit, the interpreter ends such a call with
    [RecursionError]. *)
Theorem left_recursion_exceeds_every_depth (h : heap) (s g : ref)
    (others pre post : list ref) (text : string) (fuel : nat) :
  h !! s = Some (SequenceParser (g :: others)) ->
  h !! g = Some (GroupParser (pre ++ s :: post)) ->
  Forall (fun q => parse_returns h q text true FAILED) pre ->
  (forall partially, parse fuel h s text partially = OutOfFuel)
  /\ parse fuel h g text true = OutOfFuel
  /\ (Forall (fun q => parse_returns h q text false FAILED) pre ->
      parse fuel h g text false = OutOfFuel).
Proof.
  intros Hs Hg Hpre.
  pose proof (fun fuel => left_recursion_starves h s g others pre post text
                            fuel Hs Hg Hpre) as Hloop.
  split; [apply Hloop|]. split; [apply Hloop|].
  intros Hpre'. destruct fuel as [|fuel]; [done|].
  rewrite parse_unfold, Hg.
  apply GroupParser_parse_starves; [|apply Hloop].
  eapply Forall_impl; [exact Hpre'|]. intros q Hq.
  by apply returns_FAILED_or_starves.
Qed.

End Termination.

(** The grammar of the end-to-end scenario, ranked by creation order. *)
Lemma acyclic_grammar_terminates_witness :
  ranked SumGrammar.grammar (fun p => p)
  /\ SumGrammar.sum < length SumGrammar.grammar
  /\ completes (@parse digits_regex (S SumGrammar.sum) SumGrammar.grammar
                  SumGrammar.sum "12+7" false).
Proof.
  assert (ranked SumGrammar.grammar (fun p => p)) as Hranked.
  { intros [|[|[|p]]] obj [= <-]; simpl; repeat constructor; simpl; lia. }
  assert (SumGrammar.sum < length SumGrammar.grammar) as Hp
    by (vm_compute; lia).
  split; [exact Hranked|]. split; [exact Hp|].
  exact (proj1 (@acyclic_grammar_terminates digits_regex _ (fun p => p) _
                  "12+7" false Hranked Hp)).
Defined.

(** The grammar the module builds, on a text that does not start with a
    digit: [add] starts with [expr], and [expr] reaches [add] after
    [num].  A depth of 1000 is not enough. *)
Lemma left_recursion_exceeds_every_depth_witness :
  Driver.grammar !! Driver.add
  = Some (SequenceParser (Driver.expr :: [Driver.plus; Driver.expr]))
  /\ Driver.grammar !! Driver.expr
     = Some (GroupParser ([Driver.num] ++ Driver.add :: [Driver.mult]))
  /\ Forall (fun q => @parse_returns digits_regex Driver.grammar q "+" true
                        FAILED) [Driver.num]
  /\ forall partially,
       @parse digits_regex 1000 Driver.grammar Driver.add "+" partially
       = OutOfFuel.
Proof.
  assert (Forall (fun q => @parse_returns digits_regex Driver.grammar q "+"
                             true FAILED) [Driver.num]) as Hpre
    by (constructor; [by exists 1 | constructor]).
  split; [reflexivity|]. split; [reflexivity|]. split; [exact Hpre|].
  exact (proj1 (@left_recursion_exceeds_every_depth digits_regex
                  Driver.grammar Driver.add Driver.expr _ [Driver.num]
                  [Driver.mult] "+" 1000 eq_refl eq_refl Hpre)).
Defined.

(** ** [CombinedParser.define] *)

Lemma define_length h self parsers :
  length (CombinedParser_define h self parsers) = length h.
Proof.
  unfold CombinedParser_define. destruct (h !! self); [|done].
  apply length_insert.
Qed.

Lemma set_parsers_same_kind obj parsers qobj :
  same_kind_parsers (set_parsers obj parsers) qobj = same_kind_parsers obj qobj.
Proof. by destruct obj, qobj. Qed.

Lemma set_parsers_twice obj parsers parsers' :
  set_parsers (set_parsers obj parsers) parsers' = set_parsers obj parsers'.
Proof. by destruct obj. Qed.

Lemma set_parsers_own obj qs :
  same_kind_parsers obj obj = Some qs -> set_parsers obj qs = obj.
Proof. destruct obj; simpl; congruence. Qed.

Lemma define_insert h self obj parsers :
  h !! self = Some obj ->
  CombinedParser_define h self parsers
  = <[self := set_parsers obj (stored_parsers h obj parsers)]> h.
Proof. intros Hself. unfold CombinedParser_define. by rewrite Hself. Qed.

Lemma stored_parsers_self h self obj :
  h !! self = Some obj ->
  set_parsers obj (stored_parsers h obj [self]) = obj.
Proof.
  intros Hself. unfold stored_parsers. rewrite Hself.
  destruct (same_kind_parsers obj obj) as [qs|] eqn:Hkind.
  - by apply set_parsers_own.
  - by destruct obj.
Qed.

(** X8.  [define] changes the object it is called on and nothing else,
    whatever it is given: the heap keeps its size and every other object
    its state.  [self.define(self)] changes nothing at all, and calling
    [define] a second time with the same arguments changes nothing
    more. *)
Theorem CombinedParser_define_frame (h : heap) (self : ref)
    (parsers : list ref) :
  length (CombinedParser_define h self parsers) = length h
  /\ (forall p, p <> self -> CombinedParser_define h self parsers !! p = h !! p)
  /\ CombinedParser_define h self [self] = h
  /\ CombinedParser_define (CombinedParser_define h self parsers) self parsers
     = CombinedParser_define h self parsers.
Proof.
  split; [apply define_length|].
  split; [intros p Hp; by apply define_lookup_other|].
  destruct (h !! self) as [obj|] eqn:Hself.
  2:{ unfold CombinedParser_define. by rewrite !Hself. }
  assert (self < length h) as Hlt by (by eapply lookup_lt_Some).
  split.
  - rewrite (define_insert h self obj) by done.
    apply list_insert_id. by rewrite stored_parsers_self.
  - rewrite (define_insert h self obj parsers) by done.
    set (stored := stored_parsers h obj parsers).
    rewrite (define_insert _ self (set_parsers obj stored))
      by (by apply list_lookup_insert_eq).
    unfold heap, ref in *.
    rewrite list_insert_insert_eq, set_parsers_twice. do 2 f_equal.
    unfold stored, stored_parsers. unfold heap, ref in *.
    destruct parsers as [|q [|q' parsers]]; try done.
    destruct (decide (q = self)) as [->|Hq].
    + rewrite list_lookup_insert_eq by done. rewrite Hself.
      rewrite set_parsers_same_kind.
      destruct (same_kind_parsers obj obj) as [qs|] eqn:Hkind.
      * rewrite (set_parsers_own obj qs Hkind). by rewrite Hkind.
      * by destruct obj.
    + rewrite list_lookup_insert_ne by done.
      destruct (h !! q) as [qobj|]; [|done].
      by rewrite set_parsers_same_kind.
Qed.

Section Unwrapping.

Context {regex : Regex}.

Lemma define_unwraps h self q obj qobj qs :
  h !! self = Some obj ->
  h !! q = Some qobj ->
  same_kind_parsers obj qobj = Some qs ->
  CombinedParser_define h self [q] !! self = Some (set_parsers obj qs)
  /\ CombinedParser_define h self [q] !! q = Some (set_parsers qobj qs).
Proof.
  intros Hself Hq Hkind.
  assert (CombinedParser_define h self [q] !! self = Some (set_parsers obj qs))
    as Hnew.
  { unfold CombinedParser_define. rewrite Hself, Hq, Hkind.
    apply list_lookup_insert_eq. by eapply lookup_lt_Some. }
  split; [exact Hnew|].
  destruct (decide (q = self)) as [->|Hne].
  - rewrite Hnew. congruence.
  - rewrite define_lookup_other by done. rewrite Hq. f_equal.
    destruct obj, qobj; simpl in *; congruence.
Qed.

(** X9.  A group parser defined with a single group parser adopts that
    parser's children, and from then on parses exactly as it does: on
    every text, in both modes and with any fuel the two calls have the
    same outcome. *)
Theorem GroupParser_define_unwraps (h : heap) (g q : ref)
    (old qs : list ref) :
  h !! g = Some (GroupParser old) ->
  h !! q = Some (GroupParser qs) ->
  CombinedParser_define h g [q] !! g = Some (GroupParser qs)
  /\ forall fuel text partially,
       parse fuel (CombinedParser_define h g [q]) g text partially
       = parse fuel (CombinedParser_define h g [q]) q text partially.
Proof.
  intros Hg Hq.
  destruct (define_unwraps h g q _ _ qs Hg Hq eq_refl) as [Hg' Hq'].
  split; [exact Hg'|].
  intros [|fuel] text partially; [done|].
  rewrite !parse_unfold. simpl in Hg', Hq'. by rewrite Hg', Hq'.
Qed.

Lemma SequenceParser_loop_with_parser call s q parsers text partially results :
  SequenceParser_loop call s parsers text partially results
  = let* r := SequenceParser_loop call q parsers text partially results in
    Return (with_parser s r).
Proof.
  revert text results.
  induction parsers as [|parser others IH]; intros text results; simpl.
  - unfold SequenceParser_finish.
    by destruct (negb partially && (0 <? String.length text)).
  - destruct (call parser text true) as [result| | |]; simpl; try done.
    destruct (is_FAILED result).
    + destruct (negb partially); simpl; [done|].
      unfold SequenceParser_finish.
      by destruct (negb partially && (0 <? String.length text)).
    + destruct (ParseResult_length result) as [n| | |]; simpl;
        [apply IH | done..].
Qed.

(** X10.  A sequence parser defined with a single sequence parser adopts
    that parser's children instead of nesting it: from then on it returns
    what that parser returns, a success being under its own name with the
    same child results, and it raises when that parser raises. *)
Theorem SequenceParser_define_unwraps (h : heap) (s q : ref)
    (old qs : list ref) :
  h !! s = Some (SequenceParser old) ->
  h !! q = Some (SequenceParser qs) ->
  CombinedParser_define h s [q] !! s = Some (SequenceParser qs)
  /\ forall fuel text partially,
       parse fuel (CombinedParser_define h s [q]) s text partially
       = let* r := parse fuel (CombinedParser_define h s [q]) q text partially in
         Return (with_parser s r).
Proof.
  intros Hs Hq.
  destruct (define_unwraps h s q _ _ qs Hs Hq eq_refl) as [Hs' Hq'].
  split; [exact Hs'|].
  intros [|fuel] text partially; [done|].
  rewrite !parse_unfold. simpl in Hs', Hq'. rewrite Hs', Hq'.
  apply SequenceParser_loop_with_parser.
Qed.

End Unwrapping.

(** Two group parsers: the second is defined with the first. *)
Lemma GroupParser_define_unwraps_witness :
  let h := [LiteralParser "a"; GroupParser [0]; GroupParser []] in
  h !! 2 = Some (GroupParser [])
  /\ h !! 1 = Some (GroupParser [0])
  /\ CombinedParser_define h 2 [1] !! 2 = Some (GroupParser [0])
  /\ @parse digits_regex 2 (CombinedParser_define h 2 [1]) 2 "a" false
     = @parse digits_regex 2 (CombinedParser_define h 2 [1]) 1 "a" false.
Proof.
  intros h. split; [reflexivity|]. split; [reflexivity|].
  pose proof (@GroupParser_define_unwraps digits_regex h 2 1 [] [0]
                eq_refl eq_refl) as [Hg Hparse].
  split; [exact Hg | exact (Hparse 2 "a" false)].
Defined.

(** Two sequence parsers: the second is defined with the first. *)
Lemma SequenceParser_define_unwraps_witness :
  let h := [LiteralParser "a"; SequenceParser [0]; SequenceParser []] in
  h !! 2 = Some (SequenceParser [])
  /\ h !! 1 = Some (SequenceParser [0])
  /\ CombinedParser_define h 2 [1] !! 2 = Some (SequenceParser [0])
  /\ @parse digits_regex 2 (CombinedParser_define h 2 [1]) 2 "a" false
     = Return (Node 2 [Leaf 0 "a"]).
Proof.
  intros h. split; [reflexivity|]. split; [reflexivity|].
  pose proof (@SequenceParser_define_unwraps digits_regex h 2 1 [] [0]
                eq_refl eq_refl) as [Hs Hparse].
  split; [exact Hs | exact (Hparse 2 "a" false)].
Defined.

(** ** [Parser.__or__] in general *)

Lemma Parser_or_define h self other :
  Parser_or h self other
  = (fst (new_GroupParser h),
     CombinedParser_define (snd (new_GroupParser h)) (fst (new_GroupParser h))
       (operands h self ++ operands h other)).
Proof.
  unfold Parser_or, operands.
  destruct (h !! self) as [[]|], (h !! other) as [[]|]; reflexivity.
Qed.

Lemma Parser_or_keeps_objects h self other p obj :
  h !! p = Some obj -> snd (Parser_or h self other) !! p = Some obj.
Proof.
  intros Hp. rewrite Parser_or_define. cbn [snd].
  rewrite define_lookup_other.
  - by apply new_lookup_old.
  - by eapply new_fresh.
Qed.

(** X11.  [self | other] creates one object, a group parser, and changes
    no other: the new reference is the next free one, the heap grows by
    one, and every object that existed keeps its state (the operands are
    not mutated).  When the operands contribute two children or more (a
    group parser contributes its children, any other parser itself), the
    new group parser holds exactly these, the left operand's first. *)
Theorem Parser_or_new_group (h : heap) (self other : ref) :
  let g := fst (Parser_or h self other) in
  let h' := snd (Parser_or h self other) in
  g = length h
  /\ length h' = S (length h)
  /\ (forall p obj, h !! p = Some obj -> h' !! p = Some obj)
  /\ (exists parsers, h' !! g = Some (GroupParser parsers))
  /\ (2 <= length (operands h self ++ operands h other) ->
      h' !! g = Some (GroupParser (operands h self ++ operands h other))).
Proof.
  rewrite Parser_or_define. cbn zeta. cbn [fst snd].
  set (g := fst (new_GroupParser h)). set (h0 := snd (new_GroupParser h)).
  set (children := operands h self ++ operands h other).
  assert (h0 !! g = Some (GroupParser [])) as Hg by apply new_lookup.
  split; [done|].
  split.
  { rewrite define_length. unfold h0, new_GroupParser, new, snd.
    rewrite List.length_app. simpl. lia. }
  split.
  { intros p obj Hp. rewrite define_lookup_other.
    - by apply new_lookup_old.
    - by eapply new_fresh. }
  split.
  - rewrite (define_insert h0 g (GroupParser [])) by done.
    eexists. apply list_lookup_insert_eq. by eapply lookup_lt_Some.
  - intros Hlen. destruct children as [|p [|q more]]; simpl in Hlen;
      [lia | lia |].
    by apply define_lookup.
Qed.

Section Alternation.

Context {regex : Regex}.

Lemma GroupParser_parse_app call ps qs text partially :
  GroupParser_parse call (ps ++ qs) text partially
  = let* r := GroupParser_parse call ps text partially in
    if negb (is_FAILED r) then Return r
    else GroupParser_parse call qs text partially.
Proof.
  induction ps as [|p ps IH]; simpl; [done|].
  destruct (call p text partially) as [r| | |]; simpl; try done.
  destruct (is_FAILED r) eqn:Hr; simpl; [exact IH | by rewrite Hr].
Qed.

Lemma GroupParser_parse_single call p text partially :
  GroupParser_parse call [p] text partially = call p text partially.
Proof.
  simpl. destruct (call p text partially) as [r| | |]; simpl; try done.
  by destruct r.
Qed.

Lemma GroupParser_parse_mono fuel fuel' h parsers text partially r :
  fuel <= fuel' ->
  GroupParser_parse (parse fuel h) parsers text partially = Return r ->
  GroupParser_parse (parse fuel' h) parsers text partially = Return r.
Proof.
  intros Hle Hr. rewrite <- Hr. apply GroupParser_parse_extends.
  - intros p t b Hfuel. by apply parse_fuel_mono.
  - by rewrite Hr.
Qed.

(** Trying the [operands] of an existing parser in order is calling the
    parser. *)
Lemma operands_parse h' h p obj text partially r :
  h !! p = Some obj ->
  h' !! p = Some obj ->
  (exists fuel,
     GroupParser_parse (parse fuel h') (operands h p) text partially = Return r)
  <-> parse_returns h' p text partially r.
Proof.
  intros Hp Hp'. unfold operands. rewrite Hp.
  destruct (is_GroupParser obj) eqn:Hkind.
  - destruct obj as [| | |parsers]; try done. split.
    + intros [fuel Hr]. exists (S fuel). by rewrite parse_unfold, Hp'.
    + intros [[|fuel] Hr]; [done|]. exists fuel.
      by rewrite parse_unfold, Hp' in Hr.
  - assert (match obj with GroupParser parsers => parsers | _ => [p] end = [p])
      as -> by (by destruct obj).
    split; intros [fuel Hr]; exists fuel.
    + by rewrite GroupParser_parse_single in Hr.
    + by rewrite GroupParser_parse_single.
Qed.

(** The new group parser of [Parser_or] parses as a group parser over the
    operands' contributions does, also when [define] unwrapped a single
    contribution. *)
Lemma Parser_or_parse h self other text partially r :
  let g := fst (Parser_or h self other) in
  let h' := snd (Parser_or h self other) in
  parse_returns h' g text partially r
  <-> exists fuel,
        GroupParser_parse (parse fuel h')
          (operands h self ++ operands h other) text partially = Return r.
Proof.
  rewrite Parser_or_define. cbn zeta. cbn [fst snd].
  set (g := fst (new_GroupParser h)). set (h0 := snd (new_GroupParser h)).
  set (children := operands h self ++ operands h other).
  set (h' := CombinedParser_define h0 g children).
  assert (h0 !! g = Some (GroupParser [])) as Hg by apply new_lookup.
  assert (h' !! g = Some (GroupParser (stored_parsers h0 (GroupParser []) children)))
    as Hg'.
  { unfold h'. rewrite (define_insert h0 g (GroupParser [])) by done.
    apply list_lookup_insert_eq. by eapply lookup_lt_Some. }
  assert (forall stored,
            h' !! g = Some (GroupParser stored) ->
            parse_returns h' g text partially r
            <-> exists fuel,
                  GroupParser_parse (parse fuel h') stored text partially
                  = Return r) as Hgroup.
  { intros stored Hstored. split.
    - intros [[|fuel] Hr]; [done|]. exists fuel.
      by rewrite parse_unfold, Hstored in Hr.
    - intros [fuel Hr]. exists (S fuel). by rewrite parse_unfold, Hstored. }
  unfold stored_parsers in Hg'.
  destruct children as [|q [|q' more]] eqn:Hchildren;
    [by apply Hgroup | | by apply Hgroup].
  destruct (h0 !! q) as [qobj|] eqn:Hq; [|by apply Hgroup].
  destruct qobj as [| | |qs]; simpl in Hg'; try by apply Hgroup.
  assert (h' !! q = Some (GroupParser qs)) as Hq'.
  { destruct (decide (q = g)) as [->|Hne].
    - rewrite Hg'. congruence.
    - unfold h'. by rewrite define_lookup_other. }
  rewrite (Hgroup qs Hg'). split.
  - intros [fuel Hr]. exists (S fuel).
    by rewrite GroupParser_parse_single, parse_unfold, Hq'.
  - intros [[|fuel] Hr]; rewrite GroupParser_parse_single in Hr; [done|].
    exists fuel. by rewrite parse_unfold, Hq' in Hr.
Qed.

(** X12.  [self | other] parses as "[self], or else [other]": on every
    text and in both modes, the new parser returns a success exactly when
    [self] returns it, or [self] fails and [other] returns it; it returns
    the sentinel exactly when both fail.  This holds whether or not the
    operands are group parsers whose children were spliced. *)
Theorem Parser_or_alternation (h : heap) (self other : ref)
    (kself kother : Parser) (text : string) (partially : bool)
    (r : ParseResult) :
  h !! self = Some kself ->
  h !! other = Some kother ->
  let g := fst (Parser_or h self other) in
  let h' := snd (Parser_or h self other) in
  parse_returns h' g text partially r
  <-> (parse_returns h' self text partially r /\ r <> FAILED)
      \/ (parse_returns h' self text partially FAILED
          /\ parse_returns h' other text partially r).
Proof.
  intros Hself Hother g h'.
  pose proof (Parser_or_keeps_objects h self other _ _ Hself) as Hself'.
  pose proof (Parser_or_keeps_objects h self other _ _ Hother) as Hother'.
  fold h' in Hself', Hother'.
  unfold g, h'. rewrite Parser_or_parse. fold h'.
  rewrite <- !(operands_parse h' h self kself) by done.
  rewrite <- (operands_parse h' h other kother) by done.
  split.
  - intros [fuel Hr]. rewrite GroupParser_parse_app in Hr.
    destruct (GroupParser_parse (parse fuel h') (operands h self) text
                partially) as [rA| | |] eqn:HA; simpl in Hr; try done.
    destruct (is_FAILED rA) eqn:Hfailed; simpl in Hr.
    + apply is_FAILED_true in Hfailed as ->. right.
      split; by exists fuel.
    + injection Hr as <-. left. split; [by exists fuel|].
      intros ->. done.
  - intros [[[fuel HA] Hr]|[[fuel1 HA] [fuel2 HB]]].
    + exists fuel. rewrite GroupParser_parse_app, HA. simpl.
      by rewrite (is_FAILED_false _ Hr).
    + exists (fuel1 `max` fuel2). rewrite GroupParser_parse_app.
      rewrite (GroupParser_parse_mono fuel1 _ _ _ _ _ FAILED) by (done || lia).
      simpl. apply (GroupParser_parse_mono fuel2); [lia | done].
Qed.

End Alternation.

(** A group of two literals, [or]-ed with a third literal. *)
Lemma Parser_or_new_group_witness :
  let h := [LiteralParser "a"; LiteralParser "b"; GroupParser [0; 1];
            LiteralParser "c"] in
  2 <= length (operands h 2 ++ operands h 3)
  /\ snd (Parser_or h 2 3) !! fst (Parser_or h 2 3)
     = Some (GroupParser [0; 1; 3]).
Proof.
  intros h. split; [simpl; lia|].
  refine (proj2 (proj2 (proj2 (proj2 (Parser_or_new_group h 2 3)))) _).
  simpl. lia.
Defined.

(** The same alternation on ["c"]: the group fails, the literal matches. *)
Lemma Parser_or_alternation_witness :
  let h := [LiteralParser "a"; LiteralParser "b"; GroupParser [0; 1];
            LiteralParser "c"] in
  h !! 2 = Some (GroupParser [0; 1])
  /\ h !! 3 = Some (LiteralParser "c")
  /\ @parse_returns digits_regex (snd (Parser_or h 2 3)) 2 "c" false FAILED
  /\ @parse_returns digits_regex (snd (Parser_or h 2 3)) 3 "c" false (Leaf 3 "c")
  /\ @parse_returns digits_regex (snd (Parser_or h 2 3)) (fst (Parser_or h 2 3))
       "c" false (Leaf 3 "c").
Proof.
  intros h.
  assert (@parse_returns digits_regex (snd (Parser_or h 2 3)) 2 "c" false
            FAILED) as HA by (by exists 2).
  assert (@parse_returns digits_regex (snd (Parser_or h 2 3)) 3 "c" false
            (Leaf 3 "c")) as HB by (by exists 1).
  split; [reflexivity|]. split; [reflexivity|].
  split; [exact HA|]. split; [exact HB|].
  apply (proj2 (@Parser_or_alternation digits_regex h 2 3 _ _ "c" false
                  (Leaf 3 "c") eq_refl eq_refl)).
  right. by split.
Defined.

(** ** When a sequence parser raises *)

Section Raising.

Context {regex : Regex}.

(** The loop runs through children that succeed. *)
Lemma SequenceParser_loop_skip h self pre more text results rest :
  gathers h text pre results rest ->
  exists fuel, forall fuel' partially acc,
    fuel <= fuel' ->
    SequenceParser_loop (parse fuel' h) self (pre ++ more) text partially acc
    = SequenceParser_loop (parse fuel' h) self more rest partially
        (acc ++ results).
Proof.
  induction 1 as [text|text parser parsers result n results rest
                      [fuel1 Hhead] Hok Hlen _ [fuel2 IH]].
  - exists 0. intros fuel' partially acc _. simpl. by rewrite app_nil_r.
  - exists (fuel1 `max` fuel2). intros fuel' partially acc Hle. simpl.
    rewrite (parse_returns_mono fuel1 fuel' _ _ _ _ _ ltac:(lia) Hhead).
    simpl. rewrite (is_FAILED_false _ Hok), Hlen. simpl.
    rewrite IH by lia. by rewrite <- app_assoc.
Qed.

Lemma SequenceParser_loop_raises fuel h self parsers text partially acc e :
  SequenceParser_loop (parse fuel h) self parsers text partially acc = Raise e ->
  exists pre q post results rest,
    parsers = pre ++ q :: post
    /\ gathers h text pre results rest
    /\ (parse fuel h q rest true = Raise e
        \/ (e = NotImplementedError
            /\ exists c parsed, parse fuel h q rest true = Return (Node c parsed))).
Proof.
  revert text acc.
  induction parsers as [|parser others IH]; intros text acc; simpl; [done|].
  destruct (parse fuel h parser text true) as [result| | |] eqn:Hq; simpl;
    try done.
  - destruct result as [|c parsed|c parsed]; simpl.
    + by destruct (negb partially).
    + intros (pre & q & post & results & rest & -> & Hpre & Hraise)%IH.
      exists (parser :: pre), q, post, (Leaf c parsed :: results), rest.
      split; [done|]. split; [|done].
      eapply gathers_cons; [by exists fuel | done | done | exact Hpre].
    + intros [= <-].
      exists [], parser, others, [], text.
      split; [done|]. split; [constructor|]. right. split; [done|]. eauto.
  - intros [= <-].
    exists [], parser, others, [], text.
    split; [done|]. split; [constructor|]. by left.
Qed.

(** X13.  A sequence parser raises exactly when, after children that
    succeed one after the other, the next child either raises or returns
    a success with a list payload (the result of a sequence parser, also
    through a group parser): reading the [length] of that result raises
    [NotImplementedError].  The mode makes no difference. *)
Theorem SequenceParser_raises_iff (h : heap) (self : ref)
    (parsers : list ref) (text : string) (partially : bool) (e : exception) :
  h !! self = Some (SequenceParser parsers) ->
  parse_ends h self text partially (Raise e)
  <-> exists pre q post results rest,
        parsers = pre ++ q :: post
        /\ gathers h text pre results rest
        /\ (parse_ends h q rest true (Raise e)
            \/ (e = NotImplementedError
                /\ exists c parsed,
                     parse_returns h q rest true (Node c parsed))).
Proof.
  intros Hself. split.
  - intros [_ [[|fuel] Hraise]]; [done|].
    rewrite parse_unfold, Hself in Hraise.
    apply SequenceParser_loop_raises in Hraise
      as (pre & q & post & results & rest & -> & Hpre & Hq).
    exists pre, q, post, results, rest. split; [done|]. split; [done|].
    destruct Hq as [Hq|[-> (c & parsed & Hq)]].
    + left. split; [done | by exists fuel].
    + right. split; [done|]. exists c, parsed. by exists fuel.
  - intros (pre & q & post & results & rest & -> & Hpre & Hq).
    split; [done|].
    destruct (SequenceParser_loop_skip h self pre (q :: post) text results
                rest Hpre) as [fuel1 Hskip].
    destruct Hq as [[_ [fuel2 Hq]]|[-> (c & parsed & [fuel2 Hq])]].
    + exists (S (fuel1 `max` fuel2)). rewrite parse_unfold, Hself.
      unfold SequenceParser_parse. rewrite Hskip by lia. simpl.
      assert (parse (fuel1 `max` fuel2) h q rest true = Raise e) as Hq'
        by (rewrite (parse_fuel_mono fuel2); [done | lia | by rewrite Hq]).
      by rewrite Hq'.
    + exists (S (fuel1 `max` fuel2)). rewrite parse_unfold, Hself.
      unfold SequenceParser_parse. rewrite Hskip by lia. simpl.
      by rewrite (parse_returns_mono fuel2 (fuel1 `max` fuel2) _ _ _ _ _
                    ltac:(lia) Hq).
Qed.

(** X14.  A success names the parser that built it: what a literal, a
    pattern or a sequence parser returns, if not the sentinel, carries
    that parser's own reference, and no success carries the reference of
    a group parser. *)
Theorem success_names_its_parser (h : heap) (p : ref) (obj : Parser)
    (text : string) (partially : bool) (r : ParseResult) :
  h !! p = Some obj ->
  parse_returns h p text partially r ->
  r <> FAILED ->
  (is_GroupParser obj = false -> ParseResult_parser r = Some p)
  /\ (forall g parsers, h !! g = Some (GroupParser parsers) ->
        ParseResult_parser r <> Some g).
Proof.
  intros Hp [fuel Hr] Hok. split.
  - intros Hkind. destruct fuel as [|fuel]; [done|].
    rewrite parse_unfold, Hp in Hr.
    destruct obj as [literal|pattern|parsers|parsers]; try done.
    + injection Hr as <-.
      by rewrite (LiteralParser_parse_success p literal text partially _
                    eq_refl Hok).
    + injection Hr as <-. unfold RegexParser_parse in *.
      destruct (re_match pattern text) as [e|]; [|done].
      destruct partially; [done|].
      by destruct (negb (String.eqb text (slice_to e text))).
    + by apply SequenceParser_loop_result in Hr as [->|[gathered ->]].
  - intros g parsers Hg Hnamed.
    destruct (parse_result_built fuel h p text partially r Hr) as [->|Hbuilt];
      [done|].
    destruct r as [|c parsed|c parsed]; simpl in *; try done;
      injection Hnamed as ->.
    + destruct Hbuilt as [[literal Hc]|[pattern Hc]]; congruence.
    + destruct Hbuilt as [ps Hc]. congruence.
Qed.

End Raising.

(** A sequence parser whose child is a sequence parser, on a text the
    inner one matches. *)
Lemma SequenceParser_raises_iff_witness :
  let h := [LiteralParser "a"; SequenceParser [0]; SequenceParser [1; 0]] in
  h !! 2 = Some (SequenceParser [1; 0])
  /\ @parse_returns digits_regex h 1 "aa" true (Node 1 [Leaf 0 "a"])
  /\ @parse_ends digits_regex h 2 "aa" false (Raise NotImplementedError).
Proof.
  intros h.
  assert (@parse_returns digits_regex h 1 "aa" true (Node 1 [Leaf 0 "a"]))
    as Hq by (by exists 2).
  split; [reflexivity|]. split; [exact Hq|].
  apply (proj2 (@SequenceParser_raises_iff digits_regex h 2 [1; 0] "aa" false
                  NotImplementedError eq_refl)).
  exists [], 1, [0], [], "aa". split; [reflexivity|].
  split; [apply gathers_nil|]. right. split; [reflexivity|]. by eexists _, _.
Defined.

(** The sequence of the end-to-end scenario on ["12+7"]. *)
Lemma success_names_its_parser_witness :
  SumGrammar.grammar !! SumGrammar.sum = Some (SequenceParser [0; 1; 0])
  /\ @parse_returns digits_regex SumGrammar.grammar SumGrammar.sum "12+7" false
       (Node 2 [Leaf 0 "12"; Leaf 1 "+"; Leaf 0 "7"])
  /\ ParseResult_parser (Node 2 [Leaf 0 "12"; Leaf 1 "+"; Leaf 0 "7"])
     = Some SumGrammar.sum.
Proof.
  assert (@parse_returns digits_regex SumGrammar.grammar SumGrammar.sum
            "12+7" false (Node 2 [Leaf 0 "12"; Leaf 1 "+"; Leaf 0 "7"])) as Hr
    by (by exists 2).
  split; [reflexivity|]. split; [exact Hr|].
  exact (proj1 (@success_names_its_parser digits_regex SumGrammar.grammar
                  SumGrammar.sum (SequenceParser [0; 1; 0]) _ _ _ eq_refl Hr
                  ltac:(discriminate)) eq_refl).
Defined.

(** ** Existing parsers are not disturbed *)

Section Frame.

Context {regex : Regex}.

Lemma SequenceParser_loop_agree call call' self parsers text partially acc :
  Forall (fun q => forall t b, call' q t b = call q t b) parsers ->
  SequenceParser_loop call' self parsers text partially acc
  = SequenceParser_loop call self parsers text partially acc.
Proof.
  intros Hagree. revert text acc.
  induction Hagree as [|parser others Hq _ IH]; intros text acc; simpl; [done|].
  rewrite Hq.
  destruct (call parser text true) as [result| | |]; simpl; try done.
  destruct (is_FAILED result); [done|].
  destruct (ParseResult_length result) as [n| | |]; simpl; [apply IH | done..].
Qed.

Lemma GroupParser_parse_agree call call' parsers text partially :
  Forall (fun q => forall t b, call' q t b = call q t b) parsers ->
  GroupParser_parse call' parsers text partially
  = GroupParser_parse call parsers text partially.
Proof.
  induction 1 as [|parser others Hq _ IH]; simpl; [done|].
  rewrite Hq.
  destruct (call parser text partially) as [result| | |]; simpl; try done.
  by destruct (is_FAILED result).
Qed.

(** Two heaps that agree on the objects of the first, which is closed,
    parse alike on them. *)
Lemma parse_agree h h' fuel p text partially :
  closed h ->
  (forall q obj, h !! q = Some obj -> h' !! q = Some obj) ->
  p < length h ->
  parse fuel h' p text partially = parse fuel h p text partially.
Proof.
  intros Hclosed Hold. revert p text partially.
  induction fuel as [|fuel IH]; intros p text partially Hp; [done|].
  rewrite !parse_unfold.
  assert (is_Some (h !! p)) as [obj Hobj] by (by apply lookup_lt_is_Some_2).
  pose proof (Hclosed p obj Hobj) as Hchildren.
  pose proof (Hold p obj Hobj) as Hobj'.
  unfold ref, heap in *. rewrite Hobj, Hobj'.
  destruct obj as [literal|pattern|parsers|parsers]; try done.
  - apply SequenceParser_loop_agree.
    eapply Forall_impl; [exact Hchildren|]. intros q Hq t b. by apply IH.
  - apply GroupParser_parse_agree.
    eapply Forall_impl; [exact Hchildren|]. intros q Hq t b. by apply IH.
Qed.

(** X15.  Building [self | other] does not change how the parsers that
    exist parse: in a heap without dangling references, every call on a
    parser that existed before has the same outcome after, on every text,
    in both modes and with any fuel. *)
Theorem Parser_or_preserves_parsers (h : heap) (self other p : ref)
    (fuel : nat) (text : string) (partially : bool) :
  closed h ->
  p < length h ->
  parse fuel (snd (Parser_or h self other)) p text partially
  = parse fuel h p text partially.
Proof.
  intros Hclosed Hp. apply parse_agree; [done| |done].
  intros q obj Hq. by apply Parser_or_keeps_objects.
Qed.

End Frame.

(** The end-to-end grammar, with [digits | plus] built on top. *)
Lemma Parser_or_preserves_parsers_witness :
  closed SumGrammar.grammar
  /\ SumGrammar.sum < length SumGrammar.grammar
  /\ @parse digits_regex 2 (snd (Parser_or SumGrammar.grammar 0 1))
       SumGrammar.sum "12+7" false
     = @parse digits_regex 2 SumGrammar.grammar SumGrammar.sum "12+7" false.
Proof.
  assert (closed SumGrammar.grammar) as Hclosed.
  { intros [|[|[|p]]] obj [= <-]; simpl; repeat constructor; simpl; lia. }
  assert (SumGrammar.sum < length SumGrammar.grammar) as Hp
    by (vm_compute; lia).
  split; [exact Hclosed|]. split; [exact Hp|].
  exact (@Parser_or_preserves_parsers digits_regex _ 0 1 _ 2 "12+7" false
           Hclosed Hp).
Defined.

(** ** The grammar the module builds when it is run *)

Lemma digits_run_slice_to text :
  digits_run (slice_to (digits_run text) text) = digits_run text.
Proof.
  induction text as [|c text IH]; simpl; [done|].
  destruct (is_digit c) eqn:Hc; simpl; [|done]. by rewrite Hc, IH.
Qed.

Lemma digits_run_app a rest :
  digits_run a = String.length a ->
  digits_run (a +:+ rest) = String.length a + digits_run rest.
Proof.
  induction a as [|c a IH]; [done|]. rewrite app_cons. simpl.
  destruct (is_digit c); [|done]. intros [= Ha]. by rewrite IH.
Qed.

Lemma slice_from_empty n text :
  slice_from n text = "" -> String.length text <= n.
Proof.
  revert text. induction n as [|n IH]; intros [|c text]; simpl; try done.
  - lia.
  - intros Hn%IH. lia.
Qed.

Lemma all_digits_slice_to text :
  0 < digits_run text -> all_digits (slice_to (digits_run text) text).
Proof.
  intros Hrun. unfold all_digits.
  rewrite digits_run_slice_to, slice_to_length by apply digits_run_le.
  by split.
Qed.

Lemma all_digits_run_app a c rest :
  all_digits a -> is_digit c = false ->
  digits_run (a +:+ String c rest) = String.length a.
Proof.
  intros [_ Ha] Hc. rewrite digits_run_app by done. simpl. rewrite Hc. lia.
Qed.

Section DriverGrammar.

Import Driver.

#[local] Abbreviation parse' := (@parse digits_regex).

Lemma num_partial fuel text :
  parse' (S fuel) grammar num text true
  = Return (match digits_run text with
            | 0 => FAILED
            | e => Leaf num (slice_to e text)
            end).
Proof.
  rewrite parse_unfold.
  change (grammar !! num) with (Some (RegexParser "[0-9]+")).
  unfold RegexParser_parse.
  change (re_match "[0-9]+" text) with
    (match digits_run text with 0 => None | e => Some e end).
  by destruct (digits_run text).
Qed.

Lemma num_total fuel text :
  parse' (S fuel) grammar num text false
  = Return (if bool_decide (all_digits text) then Leaf num text else FAILED).
Proof.
  rewrite parse_unfold.
  change (grammar !! num) with (Some (RegexParser "[0-9]+")).
  unfold RegexParser_parse.
  change (re_match "[0-9]+" text) with
    (match digits_run text with 0 => None | e => Some e end).
  pose proof (digits_run_le text) as Hle. unfold all_digits.
  destruct (digits_run text) as [|e] eqn:Hrun.
  - rewrite bool_decide_false; [done|]. intros [? ?]. lia.
  - rewrite eqb_slice_to by done.
    case_bool_decide as He; simpl.
    + rewrite bool_decide_true; [done|]. split; [lia | done].
    + rewrite bool_decide_false; [done|]. by intros [_ ?].
Qed.

Lemma expr_partial fuel text :
  0 < digits_run text ->
  parse' (S (S fuel)) grammar expr text true
  = Return (Leaf num (slice_to (digits_run text) text)).
Proof.
  intros Hrun. rewrite parse_unfold.
  change (grammar !! expr) with (Some (GroupParser [num; add; mult])).
  cbn [GroupParser_parse]. rewrite num_partial.
  by destruct (digits_run text); [lia|].
Qed.

Lemma expr_needs_digit fuel text :
  digits_run text = 0 ->
  (forall partially, parse' fuel grammar add text partially = OutOfFuel)
  /\ parse' fuel grammar expr text true = OutOfFuel.
Proof.
  intros Hrun.
  apply (left_recursion_starves grammar add expr [plus; expr] [num] [mult]);
    [done | done |].
  constructor; [|constructor]. exists 1. by rewrite num_partial, Hrun.
Qed.

Lemma expr_partial_inv fuel text r :
  parse' fuel grammar expr text true = Return r ->
  0 < digits_run text /\ r = Leaf num (slice_to (digits_run text) text).
Proof.
  intros Hr. destruct (digits_run text) as [|e] eqn:Hrun.
  - by rewrite (proj2 (expr_needs_digit fuel text Hrun)) in Hr.
  - destruct fuel as [|[|fuel]]; [done | done |].
    rewrite expr_partial, Hrun in Hr by lia. injection Hr as <-.
    split; [lia | done].
Qed.

(** The two sequences of the grammar: [expr], an operator sign, [expr]. *)
Section Operator.

Variables (self sign : ref) (c : Ascii.ascii).
Hypothesis Hself : grammar !! self = Some (SequenceParser [expr; sign; expr]).
Hypothesis Hsign : grammar !! sign = Some (LiteralParser (String c "")).
Hypothesis Hc : is_digit c = false.

Lemma sign_partial fuel text :
  parse' (S fuel) grammar sign text true
  = Return (if String.prefix (String c "") text then Leaf sign (String c "")
            else FAILED).
Proof.
  rewrite parse_unfold, Hsign. unfold LiteralParser_parse.
  by destruct (String.prefix (String c "") text).
Qed.

Lemma operation_total fuel a b :
  all_digits a -> all_digits b ->
  parse' (S (S (S fuel))) grammar self (a +:+ String c b) false
  = Return (Node self [Leaf num a; Leaf sign (String c ""); Leaf num b]).
Proof.
  intros Ha Hb. rewrite parse_unfold, Hself.
  unfold SequenceParser_parse. cbn [SequenceParser_loop].
  rewrite expr_partial by (rewrite all_digits_run_app by done; apply Ha).
  rewrite all_digits_run_app, slice_to_app by done.
  cbn [bind is_FAILED ParseResult_length]. rewrite slice_from_app.
  rewrite sign_partial.
  change (String c b) with (String c "" +:+ b) at 1. rewrite prefix_app.
  cbn [bind is_FAILED ParseResult_length].
  change (slice_from (String.length (String c "")) (String c b)) with b.
  destruct Hb as [Hb Hrun].
  rewrite expr_partial by lia. rewrite Hrun, slice_to_all by done.
  cbn [bind is_FAILED ParseResult_length SequenceParser_loop app].
  rewrite <- (app_empty_r b) at 2. rewrite slice_from_app. done.
Qed.

Lemma operation_other_sign fuel a d b :
  all_digits a -> is_digit d = false -> d <> c ->
  parse' (S (S (S fuel))) grammar self (a +:+ String d b) false = Return FAILED.
Proof.
  intros Ha Hd Hne. rewrite parse_unfold, Hself.
  unfold SequenceParser_parse. cbn [SequenceParser_loop].
  rewrite expr_partial by (rewrite all_digits_run_app by done; apply Ha).
  rewrite all_digits_run_app, slice_to_app by done.
  cbn [bind is_FAILED ParseResult_length]. rewrite slice_from_app.
  rewrite sign_partial. simpl.
  by destruct (Ascii.ascii_dec c d) as [->|].
Qed.

Lemma operation_total_inv fuel text r :
  parse' fuel grammar self text false = Return r ->
  r <> FAILED ->
  exists a b,
    all_digits a /\ all_digits b
    /\ text = a +:+ String c b
    /\ r = Node self [Leaf num a; Leaf sign (String c ""); Leaf num b].
Proof.
  destruct fuel as [|fuel]; [done|].
  rewrite parse_unfold, Hself.
  unfold SequenceParser_parse. cbn [SequenceParser_loop].
  destruct (parse' fuel grammar expr text true) as [r1| | |] eqn:H1;
    cbn [bind]; try done.
  destruct fuel as [|fuel]; [done|].
  apply expr_partial_inv in H1 as [Hrun1 ->].
  cbn [bind is_FAILED ParseResult_length].
  rewrite slice_to_length by apply digits_run_le.
  rewrite sign_partial.
  set (a := slice_to (digits_run text) text).
  set (text1 := slice_from (digits_run text) text).
  destruct (String.prefix (String c "") text1) eqn:Hprefix;
    cbn [bind is_FAILED ParseResult_length negb]; [|by intros [= <-]].
  apply prefix_split in Hprefix as [text2 Htext1].
  rewrite Htext1, slice_from_app.
  destruct (parse' (S fuel) grammar expr text2 true) as [r2| | |] eqn:H2;
    cbn [bind]; try done.
  apply expr_partial_inv in H2 as [Hrun2 ->].
  cbn [bind is_FAILED ParseResult_length SequenceParser_loop app].
  rewrite slice_to_length by apply digits_run_le.
  unfold SequenceParser_finish. cbn [negb andb].
  destruct (slice_from (digits_run text2) text2) as [|x rest] eqn:Hrest;
    simpl; [|by intros [= <-]].
  intros [= <-] _.
  apply slice_from_empty in Hrest.
  exists a, text2. split; [by apply all_digits_slice_to|].
  assert (digits_run text2 = String.length text2) as Hall
    by (pose proof (digits_run_le text2); lia).
  split; [split; [lia | done]|].
  split.
  - rewrite <- (slice_to_from (digits_run text) text). fold a text1.
    by rewrite Htext1.
  - by rewrite Hall, slice_to_all.
Qed.

End Operator.

(** X16.  What the grammar of the module accepts.  In total mode [expr]
    succeeds exactly on a number (the result is the leaf of [num]), on
    two numbers around a plus sign (the result is that of [add], with the
    three leaves) and on two numbers around a star (the result is that of
    [mult]); longer chains such as ["1+2+3"] are not accepted.  On a text
    that does not start with a digit no result is produced: [add] starts
    with [expr], which tries [add] again on the same text, so the call, in
    either mode, uses up whatever number of nested [parse] calls is
    allowed (CPython's recursion limit ends it with [RecursionError]). *)
Theorem driver_grammar_language (text : string) :
  (forall r,
     parse_returns (regex:=digits_regex) grammar expr text false r /\ r <> FAILED
     <-> (all_digits text /\ r = Leaf num text)
         \/ (exists a b,
               all_digits a /\ all_digits b
               /\ text = a +:+ "+" +:+ b
               /\ r = Node add [Leaf num a; Leaf plus "+"; Leaf num b])
         \/ (exists a b,
               all_digits a /\ all_digits b
               /\ text = a +:+ "*" +:+ b
               /\ r = Node mult [Leaf num a; Leaf star "*"; Leaf num b]))
  /\ (digits_run text = 0 ->
      forall fuel partially,
        parse (regex:=digits_regex) fuel grammar expr text partially
        = OutOfFuel).
Proof.
  split.
  - intros r. split.
    + intros [[[|fuel] Hr] Hok]; [done|].
      rewrite parse_unfold in Hr.
      change (grammar !! expr) with (Some (GroupParser [num; add; mult])) in Hr.
      cbn [GroupParser_parse] in Hr.
      destruct fuel as [|fuel]; [done|].
      rewrite num_total in Hr. cbn [bind] in Hr.
      case_bool_decide as Hdigits; cbn [is_FAILED negb] in Hr.
      { injection Hr as <-. by left. }
      right.
      destruct (parse' (S fuel) grammar add text false) as [r1| | |] eqn:Hadd;
        cbn [bind] in Hr; try done.
      destruct (is_FAILED r1) eqn:Hfailed1; cbn [negb] in Hr.
      2:{ injection Hr as <-. left.
          by apply (operation_total_inv add plus "+"%char eq_refl eq_refl
                      (S fuel)). }
      destruct (parse' (S fuel) grammar mult text false) as [r2| | |] eqn:Hmult;
        cbn [bind] in Hr; try done.
      destruct (is_FAILED r2) eqn:Hfailed2; cbn [negb] in Hr;
        [by injection Hr as <-|].
      injection Hr as <-. right.
      by apply (operation_total_inv mult star "*"%char eq_refl eq_refl
                  (S fuel)).
    + intros [[Hdigits ->]|[(a & b & Ha & Hb & -> & ->)|(a & b & Ha & Hb & -> & ->)]].
      * split; [|done]. exists 2. rewrite parse_unfold.
        change (grammar !! expr) with (Some (GroupParser [num; add; mult])).
        cbn [GroupParser_parse]. rewrite num_total.
        by rewrite bool_decide_true.
      * change ("+" +:+ b) with (String "+"%char b).
        split; [|done]. exists 4. rewrite parse_unfold.
        change (grammar !! expr) with (Some (GroupParser [num; add; mult])).
        cbn [GroupParser_parse]. rewrite num_total.
        rewrite bool_decide_false.
        2:{ intros [_ Hall]. rewrite all_digits_run_app in Hall by done.
            rewrite length_app in Hall. simpl in Hall. lia. }
        cbn [bind is_FAILED negb].
        by rewrite (operation_total add plus "+"%char eq_refl eq_refl eq_refl).
      * change ("*" +:+ b) with (String "*"%char b).
        split; [|done]. exists 4. rewrite parse_unfold.
        change (grammar !! expr) with (Some (GroupParser [num; add; mult])).
        cbn [GroupParser_parse]. rewrite num_total.
        rewrite bool_decide_false.
        2:{ intros [_ Hall]. rewrite all_digits_run_app in Hall by done.
            rewrite length_app in Hall. simpl in Hall. lia. }
        cbn [bind is_FAILED negb].
        rewrite (operation_other_sign add plus "+"%char eq_refl eq_refl
                   eq_refl 0 a "*"%char b) by done.
        cbn [bind is_FAILED negb].
        by rewrite (operation_total mult star "*"%char eq_refl eq_refl eq_refl).
  - intros Hrun fuel [|].
    + by apply expr_needs_digit.
    + destruct fuel as [|fuel]; [done|].
      rewrite parse_unfold.
      apply (GroupParser_parse_starves _ [num] add [mult]);
        [|by apply expr_needs_digit].
      constructor; [|constructor].
      destruct fuel as [|fuel]; [by right|]. left.
      rewrite num_total. rewrite bool_decide_false; [done|].
      intros [? ?]. lia.
Qed.

End DriverGrammar.

(** The call the module makes, [expr.parse("1+2")], and an empty text,
    for which a depth of 1000 is not enough. *)
Lemma driver_grammar_language_witness :
  @parse_returns digits_regex Driver.grammar Driver.expr "1+2" false
    (Node Driver.add [Leaf Driver.num "1"; Leaf Driver.plus "+";
                      Leaf Driver.num "2"])
  /\ digits_run "" = 0
  /\ @parse digits_regex 1000 Driver.grammar Driver.expr "" false = OutOfFuel.
Proof.
  split.
  - apply (proj2 (proj1 (driver_grammar_language "1+2") _)).
    right. left. exists "1", "2".
    split; [by split; [simpl; lia|]|]. split; [by split; [simpl; lia|]|].
    by split.
  - split; [reflexivity|].
    exact (proj2 (driver_grammar_language "") eq_refl 1000 false).
Defined.
